(** * user-data-consolidator: the duplicate resolution of [app.js]

    A shallow embedding of the consolidation code of [src/app.js]
    ([transformUsersToHashByKeys], [consolidateDuplicates],
    [getConsolidatedUserList], [getListOfDuplicateValues] and
    [getResolveDuplicates]) and the properties of the specification that
    are decided by it.

    Modelling conventions.
    - A user record is a JavaScript object as [JSON.parse] creates it: its
      own properties, in creation order.  Records live in a heap and are
      passed around by reference, because [consolidateDuplicates] updates the
      first record of a bucket in place while the same object sits in the
      buckets of every key and in the list of users.
    - A field value is a JSON scalar or an opaque reference to a nested
      object; a number is the integer it denotes.  The comparisons [===] and
      [==] and the conversion of a value to a property name follow
      ECMAScript; where a conversion is not covered (a number against a
      string that is not a decimal integer, a nested object used as a key
      value) the run is reported as [Unmodelled] rather than guessed.
    - [for (k in o)] and [Object.keys] visit array indices in ascending order
      and then the other names in creation order.
    - Names that meet [Object.prototype].  [consolidateDuplicates] calls
      [hasOwnProperty] on a record and assigns to its fields: a record that
      owns a field [hasOwnProperty] makes the call a TypeError, and the
      assignment of a field [__proto__] that the record does not own runs the
      setter of [Object.prototype], which ignores a string, a number or a
      boolean and replaces the prototype by an object or [null]
      ([Unmodelled]).  A configured key that the merged
      record does not own is read from [Object.prototype] when it names one
      of its members ([Unmodelled]).  The hash of a key is an array: of the
      names that clash with it, the bucket name [length] throws a TypeError
      as in the source, [hasOwnProperty] and [__proto__] are reported as
      [Unmodelled].  The index and the scan read the configured keys, which
      the program fixes to [_id] and [email]: there the value of a key that
      a record does not own is [undefined].
    - A nested object in a string concatenation is converted by its own
      [toString] or [valueOf], which the opaque reference does not show
      ([Unmodelled]).
    - The change log is a list of structured entries, one constructor per
      [writelog] call site; the text and time stamp of a line belong to the
      driver.
    - [getResolveDuplicates] recurses until no duplicate value is reported;
      the embedding bounds the number of passes by [fuel]. *)

From stdpp Require Import base list strings pretty.
From Stdlib Require Import ZArith Ascii Lia.

Local Open Scope string_scope.
Local Open Scope list_scope.

(** ** Outcomes *)

Inductive failure :=
| TypeError      (* an uncaught JavaScript TypeError *)
| Unmodelled     (* the run leaves the fragment of JavaScript modelled here *)
| OutOfFuel.     (* the recursion of getResolveDuplicates was cut off *)

Inductive result (A : Type) :=
| Ok (a : A)
| Fail (e : failure).
Arguments Ok {A} a.
Arguments Fail {A} e.

#[global] Instance result_ret : MRet result := fun _ a => Ok a.
#[global] Instance result_bind : MBind result := fun _ _ f m =>
  match m with
  | Ok a => f a
  | Fail e => Fail e
  end.
#[global] Instance result_fmap : FMap result := fun _ _ f m =>
  match m with
  | Ok a => Ok (f a)
  | Fail e => Fail e
  end.

(** ** JavaScript values and objects *)

Module JS.

Inductive value :=
| VUndefined
| VNull
| VBool (b : bool)
| VNum (n : Z)
| VStr (s : string)
| VObj (id : nat).

#[global] Instance value_eq_dec : EqDecision value.
Proof. solve_decision. Defined.

#[global] Instance value_inhabited : Inhabited value := populate VUndefined.

(** [x === y] *)
Definition strict_eq (x y : value) : bool := bool_decide (x = y).

(** [Number.isSafeInteger]: the integers a double holds exactly. *)
Definition isSafeInteger (n : Z) : bool :=
  ((- (2 ^ 53) <? n) && (n <? 2 ^ 53))%Z.

(** Decimal digits. *)
Definition digit_of (c : ascii) : option N :=
  let n := N_of_ascii c in
  if ((48 <=? n) && (n <=? 57))%N then Some (n - 48)%N else None.

Fixpoint digits_value (acc : N) (s : string) : option N :=
  match s with
  | EmptyString => Some acc
  | String c s' =>
      match digit_of c with
      | Some d => digits_value (10 * acc + d)%N s'
      | None => None
      end
  end.

(** A non-empty run of decimal digits. *)
Definition unsigned_decimal (s : string) : option N :=
  match s with
  | EmptyString => None
  | _ => digits_value 0%N s
  end.

(** The string numeric literals covered: an optionally signed run of
    decimal digits. *)
Definition decimal_literal (s : string) : option Z :=
  match s with
  | String "-"%char s' => (fun n => (- Z.of_N n)%Z) <$> unsigned_decimal s'
  | String "+"%char s' => Z.of_N <$> unsigned_decimal s'
  | _ => Z.of_N <$> unsigned_decimal s
  end.

(** [ToNumber] on a string, compared with a number: decided for decimal
    integer literals in the safe range. *)
Definition num_eq_str (n : Z) (s : string) : result bool :=
  match decimal_literal s with
  | Some z => if isSafeInteger z && isSafeInteger n
              then Ok (n =? z)%Z else Fail Unmodelled
  | None => Fail Unmodelled
  end.

Definition num_of_bool (b : bool) : Z := if b then 1%Z else 0%Z.

(** [x == y], the abstract equality comparison. *)
Definition loose_eq (x y : value) : result bool :=
  match x, y with
  | VUndefined, (VUndefined | VNull) | VNull, (VUndefined | VNull) => Ok true
  | VBool a, VBool b => Ok (bool_decide (a = b))
  | VNum a, VNum b => Ok (a =? b)%Z
  | VStr a, VStr b => Ok (bool_decide (a = b))
  | VObj a, VObj b => Ok (bool_decide (a = b))
  | VNum a, VStr b => num_eq_str a b
  | VStr a, VNum b => num_eq_str b a
  | VBool a, VNum b | VNum b, VBool a => Ok (num_of_bool a =? b)%Z
  | VBool a, VStr b | VStr b, VBool a => num_eq_str (num_of_bool a) b
  | VObj _, (VBool _ | VNum _ | VStr _)
  | (VBool _ | VNum _ | VStr _), VObj _ => Fail Unmodelled   (* ToPrimitive *)
  | _, _ => Ok false
  end.

(** [ToString], as applied to a value used as a property name. *)
Definition ToString (v : value) : result string :=
  match v with
  | VUndefined => Ok "undefined"
  | VNull => Ok "null"
  | VBool true => Ok "true"
  | VBool false => Ok "false"
  | VNum n => if isSafeInteger n then Ok (pretty n) else Fail Unmodelled
  | VStr s => Ok s
  | VObj _ => Fail Unmodelled
  end.

(** [Array.prototype.indexOf(v) == -1] *)
Definition not_indexOf (l : list value) (v : value) : bool :=
  negb (existsb (fun x => strict_eq x v) l).

(** *** Objects: own properties in creation order *)

Abbreviation obj A := (list (string * A)) (only parsing).

Section Obj.
Context {A : Type}.

Fixpoint lookup_prop (o : obj A) (k : string) : option A :=
  match o with
  | [] => None
  | (k', a) :: o' => if bool_decide (k' = k) then Some a else lookup_prop o' k
  end.

(** [o.hasOwnProperty(k)] *)
Definition hasOwnProperty (o : obj A) (k : string) : bool :=
  match lookup_prop o k with Some _ => true | None => false end.

(** [o[k] = a]: an existing property keeps its place, a new one comes last. *)
Fixpoint set_prop (o : obj A) (k : string) (a : A) : obj A :=
  match o with
  | [] => [(k, a)]
  | (k', a') :: o' =>
      if bool_decide (k' = k) then (k', a) :: o' else (k', a') :: set_prop o' k a
  end.

(** An array index: the canonical decimal form of an integer below
    [2^32 - 1]. *)
Definition array_index (k : string) : option N :=
  match unsigned_decimal k with
  | Some n => if bool_decide (pretty n = k) && (n <? 2 ^ 32 - 1)%N
              then Some n else None
  | None => None
  end.

Fixpoint insert_by_index (n : N) (e : string * A) (l : list (N * (string * A)))
  : list (N * (string * A)) :=
  match l with
  | [] => [(n, e)]
  | (m, e') :: l' =>
      if (n <? m)%N then (n, e) :: l else (m, e') :: insert_by_index n e l'
  end.

Fixpoint index_props (o : obj A) : list (N * (string * A)) :=
  match o with
  | [] => []
  | (k, a) :: o' =>
      match array_index k with
      | Some n => insert_by_index n (k, a) (index_props o')
      | None => index_props o'
      end
  end.

Definition named_props (o : obj A) : obj A :=
  filter (fun e => array_index e.1 = None) o.

(** The order of [for (k in o)] and [Object.keys(o)]: array indices in
    ascending order, then the other names in creation order. *)
Definition for_in (o : obj A) : obj A :=
  (snd <$> index_props o) ++ named_props o.

Definition Object_keys (o : obj A) : list string := fst <$> for_in o.

End Obj.

(** [r[k]] on a record: [undefined] when the property is missing. *)
Definition get (r : obj value) (k : string) : value :=
  default VUndefined (lookup_prop r k).

(** The names of the members of [Object.prototype]. *)
Definition Object_prototype : list string :=
  ["constructor"; "__defineGetter__"; "__defineSetter__"; "hasOwnProperty";
   "__lookupGetter__"; "__lookupSetter__"; "isPrototypeOf";
   "propertyIsEnumerable"; "toString"; "valueOf"; "__proto__";
   "toLocaleString"].

Definition inherited (k : string) : bool := bool_decide (k ∈ Object_prototype).

(** [r[k]] where the record need not own [k]: a missing property is looked
    up on [Object.prototype]. *)
Definition read_prop (r : obj value) (k : string) : result value :=
  match lookup_prop r k with
  | Some v => Ok v
  | None => if inherited k then Fail Unmodelled else Ok VUndefined
  end.

Definition is_scalar (v : value) : bool :=
  match v with
  | VObj _ => false
  | _ => true
  end.

(** [s + v] for a string [s]: a scalar has a string form; a nested object is
    converted by its own [toString] or [valueOf]. *)
Definition concat_value (v : value) : result value :=
  if is_scalar v then Ok v else Fail Unmodelled.

End JS.
Export JS.

(** ** The heap of user records and the change log *)

Abbreviation loc := nat (only parsing).
Abbreviation record := (obj value) (only parsing).
Abbreviation heap := (list record) (only parsing).

(** What [writelog] is called with, one constructor per call site. *)
Inductive log_entry :=
| LogConsolidating (n : nat) (key : string)
| LogUpdatingRecord (key : string) (v entryDate : value)
| LogAddingKey (field : string)
| LogNewerData (field : string) (old new : value)
| LogStillDuplicate (duplicateValues : list value).

Record state := State { st_heap : heap; st_log : list log_entry }.

Definition writelog (e : log_entry) (st : state) : state :=
  {| st_heap := st_heap st; st_log := st_log st ++ [e] |}.

(** [o[k] = v] on the record at [o]. *)
Definition store (o : loc) (k : string) (v : value) (st : state) : state :=
  {| st_heap := <[o := set_prop (st_heap st !!! o) k v]> (st_heap st);
     st_log := st_log st |}.

(** A loop whose body may throw. *)
Fixpoint foldlM {A B : Type} (f : A → B → result A) (a : A) (l : list B)
  : result A :=
  match l with
  | [] => Ok a
  | b :: l' => a' ← f a b; foldlM f a' l'
  end.

(** ** app.js *)

Definition KEYS_WITH_DUPES : list string := ["_id"; "email"].

(** *** consolidateDuplicates (lines 165-196) *)

(** Lines 181-193, the body of [for (var j in keys)] at the field
    [k = keys[j]], a property that [nextRecord] owns.
    - Line 181 calls [oldestRecord.hasOwnProperty]: when the record owns a
      field of that name, the field is called, and a field is no function.
    - Line 184 assigns a field that [oldestRecord] does not own: for
      [__proto__] the assignment runs the setter of [Object.prototype],
      which does nothing for a scalar and replaces the prototype for an
      object or [null]; for every other name it creates the field.
    - Line 189 puts both values into the log line. *)
Definition merge_field (oldestRecord nextRecord : loc) (st : state)
  (k : string) : result state :=
  let old := st_heap st !!! oldestRecord in
  let next := st_heap st !!! nextRecord in
  if hasOwnProperty old "hasOwnProperty" then Fail TypeError
  else if negb (hasOwnProperty old k) then
    let st := writelog (LogAddingKey k) st in
    if bool_decide (k = "__proto__") then
      match get next k with
      | VNull | VObj _ => Fail Unmodelled
      | _ => Ok st
      end
    else Ok (store oldestRecord k (get next k) st)
  else if negb (strict_eq (get next k) (get old k)) then
    vold ← concat_value (get old k);
    vnew ← concat_value (get next k);
    Ok (store oldestRecord k vnew (writelog (LogNewerData k vold vnew) st))
  else Ok st.

(** The body of [for (var i in dupes)], at [nextRecord = dupes[i]]. *)
Definition merge_record (oldestRecord : loc) (st : state) (nextRecord : loc)
  : result state :=
  let keys := Object_keys (st_heap st !!! nextRecord) in
  foldlM (merge_field oldestRecord nextRecord) st keys.

Definition consolidateDuplicates (dupes : list loc) (key : string)
  (st : state) : result (loc * state) :=
  let st := writelog (LogConsolidating (length dupes) key) st in
  match dupes with
  | [] => Fail TypeError          (* oldestRecord[key] on undefined *)
  | oldestRecord :: _ =>
      let old := st_heap st !!! oldestRecord in
      (* line 171 puts [oldestRecord[key]] and [oldestRecord.entryDate] into
         the log line *)
      v ← read_prop old key ≫= concat_value;
      entryDate ← concat_value (get old "entryDate");
      let st := writelog (LogUpdatingRecord key v entryDate) st in
      st ← foldlM (merge_record oldestRecord) st dupes;
      Ok (oldestRecord, st)
  end.

(** *** generateKeyList, initUserHash (lines 260-310) *)

Record keyListEntry := { kl_key : string; kl_list : list value }.

Definition generateKeyList (keys : list string) : obj keyListEntry :=
  foldl (fun keyList k => set_prop keyList k {| kl_key := k; kl_list := [] |})
    [] keys.

(** A bucket is the array of the records that share a value; the hash of a
    key is an array whose named properties are the buckets. *)
Abbreviation bucket := (list loc) (only parsing).
Abbreviation userHashT := (obj (obj bucket)) (only parsing).

Definition initUserHash (keys : list string) : userHashT :=
  foldl (fun userHash k => set_prop userHash k []) [] keys.

(** *** transformUsersToHashByKeys (lines 209-249) *)

(** Lines 238-243: the record goes to the bucket named by its value.  The
    array that holds the buckets owns [length], whose value has no [push]. *)
Definition push_to_bucket (userHash : userHashT) (activeKey : string)
  (v : value) (user : loc) : result userHashT :=
  match lookup_prop userHash activeKey with
  | None => Fail TypeError
  | Some hashByKey =>
      name ← ToString v;
      if bool_decide (name = "length") then Fail TypeError
      else if bool_decide (name = "hasOwnProperty")
              || bool_decide (name = "__proto__") then Fail Unmodelled
      else
        let b := default [] (lookup_prop hashByKey name) in
        Ok (set_prop userHash activeKey (set_prop hashByKey name (b ++ [user])))
  end.

(** Lines 230-245: [for (var k in keyList[j].list)]. *)
Definition match_list_item (activeKey : string) (v : value) (user : loc)
  (userHash : userHashT) (item : value) : result userHashT :=
  same ← loose_eq item v;
  if same : bool then push_to_bucket userHash activeKey v user else Ok userHash.

(** Lines 218-246: the body of [for (var j in keyList)]. *)
Definition index_user_by (h : heap) (user : loc)
  (acc : obj keyListEntry * userHashT) (j : string)
  : result (obj keyListEntry * userHashT) :=
  let '(keyList, userHash) := acc in
  match lookup_prop keyList j with
  | None => Fail TypeError
  | Some entry =>
      let v := get (h !!! user) (kl_key entry) in
      let list := if not_indexOf (kl_list entry) v
                  then kl_list entry ++ [v] else kl_list entry in
      let keyList :=
        set_prop keyList j {| kl_key := kl_key entry; kl_list := list |} in
      userHash ← foldlM (match_list_item (kl_key entry) v user) userHash list;
      Ok (keyList, userHash)
  end.

Definition index_user (h : heap) (acc : obj keyListEntry * userHashT)
  (user : loc) : result (obj keyListEntry * userHashT) :=
  foldlM (index_user_by h user) acc (Object_keys acc.1).

Definition transformUsersToHashByKeys (h : heap) (users : list loc)
  (keys : list string) : result userHashT :=
  acc ← foldlM (index_user h) (generateKeyList keys, initUserHash keys) users;
  Ok acc.2.

(** *** getConsolidatedUserList (lines 95-120) *)

(** Lines 111-115, for the bucket [hashByKey[k]]. *)
Definition consolidate_bucket (key : string) (acc : list loc * state)
  (b : bucket) : result (list loc * state) :=
  let '(consolidatedUsers, st) := acc in
  if (1 <? length b)%nat then
    '(merged, st') ← consolidateDuplicates b key st;
    Ok (consolidatedUsers ++ [merged], st')
  else
    match b with
    | user :: _ => Ok (consolidatedUsers ++ [user], st)
    | [] => Fail Unmodelled       (* would push undefined *)
    end.

(** Lines 99-116, the body of [for (var j in keys)]: the list starts empty
    again for every key. *)
Definition consolidate_key (userHash : userHashT) (acc : list loc * state)
  (key : string) : result (list loc * state) :=
  let hashByKey := default [] (lookup_prop userHash key) in
  let consolidatedUsers : list loc := [] in
  foldlM (consolidate_bucket key) (consolidatedUsers, acc.2)
    (snd <$> for_in hashByKey).

Definition getConsolidatedUserList (userHash : userHashT) (keys : list string)
  (st : state) : result (list loc * state) :=
  foldlM (fun acc (_ : string) => foldlM (consolidate_key userHash) acc keys)
    ([], st) (Object_keys userHash).

(** *** getListOfDuplicateValues (lines 132-152) *)

Definition check_value (h : heap) (user : loc)
  (acc : list value * list value) (key : string) : list value * list value :=
  let '(list, dupes) := acc in
  let v := get (h !!! user) key in
  if not_indexOf list v then (list ++ [v], dupes) else (list, dupes ++ [v]).

Definition getListOfDuplicateValues (h : heap) (users : list loc)
  (keys : list string) : list value :=
  (foldl (fun acc user => foldl (check_value h user) acc keys) ([], []) users).2.

(** *** getResolveDuplicates (lines 61-83)

    The function calls itself while duplicate values are reported; [fuel]
    bounds the number of passes.  The result is the list that the source
    writes to [consolidated-leads.json]. *)
Fixpoint getResolveDuplicates (fuel : nat) (users : list loc)
  (keys : list string) (st : state) : result (list loc * state) :=
  match fuel with
  | O => Fail OutOfFuel
  | S fuel' =>
      userHash ← transformUsersToHashByKeys (st_heap st) users keys;
      '(consolidatedUsers, st) ← getConsolidatedUserList userHash keys st;
      let duplicateValues :=
        getListOfDuplicateValues (st_heap st) consolidatedUsers keys in
      if (0 <? length duplicateValues)%nat then
        getResolveDuplicates fuel' consolidatedUsers keys
          (writelog (LogStillDuplicate duplicateValues) st)
      else Ok (consolidatedUsers, st)
  end.

(** The records of [JSON.parse]: record [i] of the array sits at location [i]. *)
Definition load (rs : list record) : list loc * state :=
  (seq 0 (length rs), {| st_heap := rs; st_log := [] |}).

Definition resolve (fuel : nat) (rs : list record) (keys : list string)
  : result (list record * list log_entry) :=
  match getResolveDuplicates fuel (load rs).1 keys (load rs).2 with
  | Ok (users, st) => Ok (map (fun u => st_heap st !!! u) users, st_log st)
  | Fail e => Fail e
  end.

(** ** Notions used to state the properties *)

(** *** The merge, seen from the accumulating record

    [merge_field] and [merge_record] write to one record of the heap only;
    [absorb_field] and [absorb] are what they do to that record. *)
Definition absorb_field (next acc : record) (k : string) : record :=
  if negb (hasOwnProperty acc k) then set_prop acc k (get next k)
  else if negb (strict_eq (get next k) (get acc k)) then
    set_prop acc k (get next k)
  else acc.

Definition absorb (acc next : record) : record :=
  foldl (absorb_field next) acc (Object_keys next).

(** The record at [d] after the bucket members [l] have been merged into it;
    a member that is [d] itself is compared with itself. *)
Definition accumulate (h : heap) (d : loc) (acc : record) (l : list loc)
  : record :=
  foldl (fun acc m => if decide (m = d) then acc else absorb acc (h !!! m))
    acc l.

(** *** Flat records

    A record whose fields hold scalars and are named neither
    [hasOwnProperty] nor [__proto__]; a heap of such records. *)
Definition ordinary_field (e : string * value) : Prop :=
  e.1 ≠ "hasOwnProperty" ∧ e.1 ≠ "__proto__" ∧ is_scalar e.2 = true.

Definition flat_record (r : record) : Prop := Forall ordinary_field r.

Definition flat_heap (h : heap) : Prop := Forall flat_record h.

#[global] Instance ordinary_field_dec e : Decision (ordinary_field e).
Proof. unfold ordinary_field. apply _. Defined.

#[global] Instance flat_record_dec r : Decision (flat_record r).
Proof. unfold flat_record. apply _. Defined.

#[global] Instance flat_heap_dec h : Decision (flat_heap h).
Proof. unfold flat_heap. apply _. Defined.

(** *** Positions of a bucket during [consolidateDuplicates] *)

(** The state in which the record at position [i] of [dupes] is processed,
    when the loop gets there. *)
Definition state_before (st : state) (dupes : list loc) (i : nat) : state :=
  match foldlM (merge_record (hd 0 dupes)) st (take i dupes) with
  | Ok st' => st'
  | Fail _ => st
  end.

(** The accumulated state of the oldest record at that moment. *)
Definition accumulated (st : state) (dupes : list loc) (i : nat) : record :=
  st_heap (state_before st dupes i) !!! hd 0 dupes.

(** The record at position [i] defines field [f] with a value that differs
    from the accumulated state: there the merge adds or overwrites [f]. *)
Definition differing_write (st : state) (dupes : list loc) (i : nat)
  (f : string) : Prop :=
  ∃ m, dupes !! i = Some m ∧
    let next := st_heap (state_before st dupes i) !!! m in
    let acc := accumulated st dupes i in
    hasOwnProperty next f = true ∧
    (hasOwnProperty acc f = false ∨ get next f ≠ get acc f).

Definition entryDate (h : heap) (m : loc) : value := get (h !!! m) "entryDate".

(** A bucket in ascending [entryDate] order, for an order [date_le] on the
    stored dates. *)
Definition oldest_first (date_le : value → value → Prop) (h : heap)
  (dupes : list loc) : Prop :=
  ∀ i j m n, i < j → dupes !! i = Some m → dupes !! j = Some n →
    date_le (entryDate h m) (entryDate h n).

(** Dates written in one ISO-8601 format compare as strings. *)
Definition date_str_le (a b : value) : Prop :=
  match a, b with
  | VStr x, VStr y => String.leb x y = true
  | _, _ => False
  end.

(** *** Sample data *)

Definition user (id email entryDate name : value) : record :=
  [("_id", id); ("email", email); ("entryDate", entryDate); ("name", name)].

(** Scenario A of the specification. *)
Definition scenarioA : list record :=
  [ user (VNum 1) (VStr "a@x.com") (VStr "2020-01-01") (VStr "Al");
    user (VNum 1) (VStr "a@x.com") (VStr "2021-01-01") (VStr "Alice") ].

(** Two entries of one person whose address changed. *)
Definition changed_email : list record :=
  [ user (VNum 1) (VStr "a@x.com") (VStr "2020-01-01") (VStr "Al");
    user (VNum 1) (VStr "b@x.com") (VStr "2021-01-01") (VStr "Al") ].

(** Two persons, one entry each. *)
Definition two_persons : list record :=
  [ user (VStr "u1") (VStr "a@x.com") (VStr "2020-01-01") (VStr "Al");
    user (VStr "u2") (VStr "b@x.com") (VStr "2021-01-01") (VStr "Bo") ].

(** The [_id] of one person is the text of the [email] of another. *)
Definition id_like_email : list record :=
  [ user (VStr "a@x.com") (VStr "b@x.com") (VStr "2020-01-01") (VStr "Al");
    user (VStr "u2") (VStr "a@x.com") (VStr "2021-01-01") (VStr "Bo") ].

(** Two persons whose [_id] is their [email]. *)
Definition id_is_email : list record :=
  [ user (VStr "al@x.com") (VStr "al@x.com") (VStr "2020-01-01") (VStr "Al");
    user (VStr "bo@x.com") (VStr "bo@x.com") (VStr "2021-01-01") (VStr "Bo") ].

(** One [_id] stored as a string in one entry and as a number in the other. *)
Definition mixed_id : list record :=
  [ user (VStr "7") (VStr "a@x.com") (VStr "2020-01-01") (VStr "Al");
    user (VNum 7) (VStr "b@x.com") (VStr "2021-01-01") (VStr "Bo") ].

(** Scenario A with the newer entry first. *)
Definition newest_first : list record :=
  [ user (VNum 1) (VStr "a@x.com") (VStr "2021-01-01") (VStr "Alice");
    user (VNum 1) (VStr "a@x.com") (VStr "2020-01-01") (VStr "Al") ].

(** Three entries: two with the [_id] "7", one with the [_id] 7 and the
    [email] of the first. *)
(** The first of two entries of one person owns a field [hasOwnProperty]. *)
Definition shadowing_first : list record :=
  [ [("_id", VNum 1); ("email", VStr "a@x.com");
     ("entryDate", VStr "2020-01-01"); ("hasOwnProperty", VStr "x")];
    user (VNum 1) (VStr "a@x.com") (VStr "2021-01-01") (VStr "Al") ].

(** The second of two entries of one person owns a field [__proto__]. *)
Definition proto_field : list record :=
  [ user (VNum 1) (VStr "a@x.com") (VStr "2020-01-01") (VStr "Al");
    [("_id", VNum 1); ("email", VStr "a@x.com");
     ("entryDate", VStr "2021-01-01"); ("name", VStr "Al");
     ("__proto__", VStr "x")] ].

Definition three_entries : list record :=
  [ user (VStr "7") (VStr "a@x.com") (VStr "2020-01-01") (VStr "Al");
    user (VStr "7") (VStr "b@x.com") (VStr "2021-01-01") (VStr "Al");
    user (VNum 7) (VStr "a@x.com") (VStr "2022-01-01") (VStr "Al") ].

(** No bucket is empty. *)
Definition buckets_inhabited (userHash : userHashT) : Prop :=
  ∀ key hashByKey name (b : bucket),
    (key, hashByKey) ∈ userHash → (name, b) ∈ hashByKey → b ≠ [].

(** The number of bucket entries of one key's partition. *)
Definition partition_size (hashByKey : obj bucket) : nat :=
  sum_list (length <$> (snd <$> hashByKey)).

(** The values the records of [users] hold for [key]. *)
Definition values_of (h : heap) (users : list loc) (key : string)
  : list value :=
  (λ u, get (h !!! u) key) <$> users.

(** *** The candidate list in the words of the specification

    Section 4.3, step 2: one contribution per bucket, for each key, all of
    them collected into one list. *)
Definition contributions_of_key (userHash : userHashT) (key : string)
  : list (option loc) :=
  head <$> (snd <$> for_in (default [] (lookup_prop userHash key))).

Definition contributions_of_all_keys (userHash : userHashT)
  (keys : list string) : list (option loc) :=
  concat (contributions_of_key userHash <$> keys).

(** *** The scan of [getListOfDuplicateValues]

    The values the scan looks at, in its order: record by record, and for
    each record key by key. *)
Definition scan_values (h : heap) (users : list loc) (keys : list string)
  : list value :=
  concat ((λ u, (λ key, get (h !!! u) key) <$> keys) <$> users).

(** Lines 143-148 on the value [v]. *)
Definition see (acc : list value * list value) (v : value)
  : list value * list value :=
  if not_indexOf acc.1 v then (acc.1 ++ [v], acc.2) else (acc.1, acc.2 ++ [v]).

(** *** Effects of a pass

    [st'] comes from [st] by writes to records picked out by [written] and
    by log entries: no record is created or removed, the log is only
    appended to, the other records are as they were. *)
Definition only_writes (written : loc → Prop) (st st' : state) : Prop :=
  length (st_heap st') = length (st_heap st) ∧
  st_log st `prefix_of` st_log st' ∧
  ∀ m, ¬ written m → st_heap st' !! m = st_heap st !! m.

(** [m] is the first element of a bucket of the hash. *)
Definition bucket_head (userHash : userHashT) (m : loc) : Prop :=
  ∃ key hashByKey name (b : bucket),
    (key, hashByKey) ∈ userHash ∧ (name, b) ∈ hashByKey ∧ head b = Some m.

(** *** The index of one key

    What lines 218-246 do to the list of seen values and to the hash of the
    key they work on: [push_bucket] is [push_to_bucket], [match_item_by] is
    [match_list_item] and [index_by] is [index_user_by], each on the part of
    the state that belongs to the key. *)
Definition push_bucket (hashByKey : obj bucket) (v : value) (user : loc)
  : result (obj bucket) :=
  name ← ToString v;
  if bool_decide (name = "length") then Fail TypeError
  else if bool_decide (name = "hasOwnProperty")
          || bool_decide (name = "__proto__") then Fail Unmodelled
  else
    Ok (set_prop hashByKey name
          (default [] (lookup_prop hashByKey name) ++ [user])).

Definition match_item_by (v : value) (user : loc) (hashByKey : obj bucket)
  (item : value) : result (obj bucket) :=
  same ← loose_eq item v;
  if same : bool then push_bucket hashByKey v user else Ok hashByKey.

Definition index_by (h : heap) (key : string)
  (acc : list value * obj bucket) (user : loc)
  : result (list value * obj bucket) :=
  let v := get (h !!! user) key in
  let seen := if not_indexOf acc.1 v then acc.1 ++ [v] else acc.1 in
  hashByKey ← foldlM (match_item_by v user) acc.2 seen;
  Ok (seen, hashByKey).

(** The entries of [keyList] have distinct names, and each carries its name
    as [key]. *)
Definition keyList_wf (keyList : obj keyListEntry) : Prop :=
  NoDup (fst <$> keyList) ∧
  ∀ j entry, lookup_prop keyList j = Some entry → kl_key entry = j.

(** The part of the state of [transformUsersToHashByKeys] that belongs to
    the key [k]. *)
Definition key_view (k : string) (acc : obj keyListEntry * userHashT)
  (s : list value * obj bucket) : Prop :=
  lookup_prop acc.1 k = Some {| kl_key := k; kl_list := s.1 |} ∧
  lookup_prop acc.2 k = Some s.2.

(** A bucket name that is no array index and meets no property of the array
    that holds the buckets; a value that is such a string. *)
Definition plain_name (s : string) : Prop :=
  s ≠ "length" ∧ s ≠ "hasOwnProperty" ∧ s ≠ "__proto__" ∧
  array_index s = None.

Definition plain_value (v : value) : Prop := ∃ s, v = VStr s ∧ plain_name s.

(** The record [u] is in the bucket named after its value for [key]. *)
Definition in_own_bucket (h : heap) (key : string) (hashByKey : obj bucket)
    (u : loc) : Prop :=
  ∃ name (b : bucket),
    ToString (get (h !!! u) key) = Ok name ∧
    lookup_prop hashByKey name = Some b ∧ u ∈ b.

(** * Properties *)

(** ** Objects *)

Section ObjFacts.
Context {A : Type}.
Implicit Types (o : obj A) (k : string) (a : A).

Lemma lookup_set_prop o k a k' :
  lookup_prop (set_prop o k a) k' =
  if bool_decide (k = k') then Some a else lookup_prop o k'.
Proof.
  induction o as [|[k0 a0] o IH]; simpl.
  - by case_bool_decide.
  - destruct (bool_decide_reflect (k0 = k)) as [->|Hne]; simpl.
    + by case_bool_decide.
    + destruct (bool_decide_reflect (k0 = k')) as [->|Hne'].
      * by rewrite bool_decide_eq_false_2.
      * apply IH.
Qed.

Lemma lookup_set_prop_eq o k a : lookup_prop (set_prop o k a) k = Some a.
Proof. by rewrite lookup_set_prop, bool_decide_eq_true_2. Qed.

Lemma lookup_set_prop_ne o k a k' :
  k ≠ k' → lookup_prop (set_prop o k a) k' = lookup_prop o k'.
Proof. intros. by rewrite lookup_set_prop, bool_decide_eq_false_2. Qed.

Lemma elem_of_set_prop o k a (e : string * A) :
  e ∈ set_prop o k a → e = (k, a) ∨ e ∈ o.
Proof.
  induction o as [|[k0 a0] o IH]; simpl.
  - intros ->%list_elem_of_singleton. by left.
  - case_bool_decide; subst; rewrite !elem_of_cons; intuition.
Qed.

Lemma lookup_prop_Some_elem o k a : lookup_prop o k = Some a → (k, a) ∈ o.
Proof.
  induction o as [|[k0 a0] o IH]; simpl; [done|].
  case_bool_decide; subst.
  - intros [= ->]. left.
  - intros. right. auto.
Qed.

Lemma elem_lookup_prop_is_Some o k a : (k, a) ∈ o → is_Some (lookup_prop o k).
Proof.
  induction o as [|[k0 a0] o IH]; simpl.
  - by intros ?%elem_of_nil.
  - intros [[= -> ->]|Hin]%elem_of_cons.
    + rewrite bool_decide_eq_true_2 by done. eauto.
    + case_bool_decide; eauto.
Qed.

Lemma elem_of_insert_by_index n (e : string * A) l x :
  x ∈ insert_by_index n e l ↔ x = (n, e) ∨ x ∈ l.
Proof.
  induction l as [|[m e'] l IH]; simpl.
  - rewrite list_elem_of_singleton, elem_of_nil. tauto.
  - destruct (n <? m)%N.
    + by rewrite elem_of_cons.
    + rewrite !elem_of_cons, IH. tauto.
Qed.

Lemma elem_of_index_props o (e : string * A) :
  e ∈ (snd <$> index_props o) ↔ e ∈ o ∧ is_Some (array_index e.1).
Proof.
  rewrite list_elem_of_fmap. induction o as [|[k a] o IH]; simpl.
  - split.
    + by intros (? & _ & ?%elem_of_nil).
    + by intros [?%elem_of_nil _].
  - destruct (array_index k) as [n|] eqn:Hk.
    + split.
      * intros (y & -> & [->|Hy]%elem_of_insert_by_index); simpl.
        -- split; [left|]. by rewrite Hk.
        -- destruct IH as [IH _]. destruct IH as [? ?]; [by eauto|].
           split; [by right|done].
      * intros [[->|Hin]%elem_of_cons Hidx].
        -- exists (n, (k, a)). split; [done|].
           apply elem_of_insert_by_index. by left.
        -- destruct IH as [_ IH]. destruct IH as (y & -> & Hy); [done|].
           exists y. split; [done|]. apply elem_of_insert_by_index. by right.
    + rewrite IH, elem_of_cons. split.
      * intros [? ?]. split; [by right|done].
      * intros [[->|?] Hidx]; [|done]. simpl in Hidx. rewrite Hk in Hidx.
        by destruct Hidx.
Qed.

Lemma elem_of_for_in o (e : string * A) : e ∈ for_in o ↔ e ∈ o.
Proof.
  unfold for_in, named_props.
  rewrite elem_of_app, elem_of_index_props, list_elem_of_filter.
  destruct (array_index e.1) as [n|] eqn:He.
  - split; [intros [[? _]|[? _]]; done|]. intros. left. eauto.
  - split; [intros [[? _]|[_ ?]]; done|]. intros. by right.
Qed.

Lemma elem_of_Object_keys o k :
  k ∈ Object_keys o ↔ is_Some (lookup_prop o k).
Proof.
  unfold Object_keys. rewrite list_elem_of_fmap. split.
  - intros ([k' a] & -> & Hin); simpl.
    apply (proj1 (elem_of_for_in _ _)) in Hin.
    eapply elem_lookup_prop_is_Some, Hin.
  - intros [a Ha%lookup_prop_Some_elem]. exists (k, a).
    by rewrite elem_of_for_in.
Qed.

Lemma hasOwnProperty_true o k :
  hasOwnProperty o k = true ↔ is_Some (lookup_prop o k).
Proof.
  unfold hasOwnProperty. destruct (lookup_prop o k); split; eauto; try done.
Qed.

End ObjFacts.

(** ** The merge on one record *)

Lemma get_lookup_prop (r : record) k v : lookup_prop r k = Some v → get r k = v.
Proof. unfold get. by intros ->. Qed.

Lemma lookup_absorb_field next acc k f :
  lookup_prop (absorb_field next acc k) f =
  if bool_decide (k = f) then Some (get next k) else lookup_prop acc f.
Proof.
  unfold absorb_field, hasOwnProperty.
  destruct (lookup_prop acc k) as [v|] eqn:Hk; simpl.
  - unfold strict_eq. rewrite (get_lookup_prop acc k v Hk).
    case_bool_decide as Hv; simpl.
    + case_bool_decide; subst; [|done]. by rewrite Hk.
    + apply lookup_set_prop.
  - apply lookup_set_prop.
Qed.

Lemma lookup_absorb_fields next ks : ∀ acc f,
  (∀ k, k ∈ ks → is_Some (lookup_prop next k)) →
  lookup_prop (foldl (absorb_field next) acc ks) f =
  if bool_decide (f ∈ ks) then lookup_prop next f else lookup_prop acc f.
Proof.
  induction ks as [|k ks IH] using rev_ind; intros acc f Hks.
  - done.
  - rewrite foldl_snoc, lookup_absorb_field.
    case_bool_decide as Hk; subst.
    + rewrite bool_decide_eq_true_2 by (apply elem_of_app; right; left).
      destruct (Hks f) as [v Hv]; [apply elem_of_app; right; left|].
      by rewrite (get_lookup_prop _ _ _ Hv).
    + rewrite IH by (intros; apply Hks, elem_of_app; by left).
      rewrite (bool_decide_ext (f ∈ ks ++ [k]) (f ∈ ks)); [done|].
      rewrite elem_of_app, list_elem_of_singleton.
      split; [intros [?|?]; [done|congruence]|by left].
Qed.

(** After [next] has been absorbed, a field holds the value of [next] where
    [next] defines it and its former value otherwise. *)
Lemma lookup_absorb acc next f :
  lookup_prop (absorb acc next) f =
  match lookup_prop next f with
  | Some v => Some v
  | None => lookup_prop acc f
  end.
Proof.
  unfold absorb. rewrite lookup_absorb_fields.
  - case_bool_decide as Hf.
    + apply elem_of_Object_keys in Hf as [v ->]. done.
    + destruct (lookup_prop next f) eqn:Hn; [|done].
      destruct Hf. apply elem_of_Object_keys. eauto.
  - intros k. apply elem_of_Object_keys.
Qed.

Lemma absorb_field_self acc k :
  hasOwnProperty acc k = true → absorb_field acc acc k = acc.
Proof.
  unfold absorb_field, strict_eq. intros ->. simpl.
  by rewrite bool_decide_eq_true_2.
Qed.

(** ** Loops *)

Lemma Ok_bind {A B : Type} (a : A) (f : A → result B) : Ok a ≫= f = f a.
Proof. done. Qed.

Lemma bind_Ok {A B : Type} (m : result A) (f : A → result B) b :
  m ≫= f = Ok b → ∃ a, m = Ok a ∧ f a = Ok b.
Proof. destruct m; [eauto|done]. Qed.

Lemma foldlM_snoc {A B : Type} (f : A → B → result A) a l b :
  foldlM f a (l ++ [b]) = foldlM f a l ≫= λ a', f a' b.
Proof.
  revert a. induction l as [|x l IH]; intros a; simpl.
  - by destruct (f a b).
  - destruct (f a x); simpl; [apply IH|done].
Qed.

Lemma foldlM_app {A B : Type} (f : A → B → result A) l1 l2 a :
  foldlM f a (l1 ++ l2) = foldlM f a l1 ≫= λ a', foldlM f a' l2.
Proof.
  revert a. induction l1 as [|x l1 IH]; intros a; simpl; [done|].
  destruct (f a x); simpl; [apply IH|done].
Qed.

Lemma foldlM_invariant {A B : Type} (P : A → Prop) (f : A → B → result A) :
  (∀ a b a', P a → f a b = Ok a' → P a') →
  ∀ l a a', P a → foldlM f a l = Ok a' → P a'.
Proof.
  intros Hf l. induction l as [|b l IH]; intros a a' Ha; simpl.
  - by intros [= <-].
  - intros (a1 & Hb & Hl)%bind_Ok. eauto.
Qed.

Lemma foldlM_invariant_in {A B : Type} (P : A → Prop) (f : A → B → result A) l :
  (∀ a b a', b ∈ l → P a → f a b = Ok a' → P a') →
  ∀ a a', P a → foldlM f a l = Ok a' → P a'.
Proof.
  induction l as [|b l IH]; intros Hf a a' Ha; simpl.
  - by intros [= <-].
  - intros (a1 & Hb & Hl)%bind_Ok.
    apply (IH (λ a b a' Hin, Hf a b a' (list_elem_of_further _ _ _ Hin)) a1);
      [|done].
    eapply Hf; [left|done..].
Qed.

Lemma foldlM_total {A B : Type} (f : A → B → result A) l :
  (∀ a b, b ∈ l → ∃ a', f a b = Ok a') → ∀ a, ∃ a', foldlM f a l = Ok a'.
Proof.
  induction l as [|b l IH]; intros Hf a; simpl; [eauto|].
  destruct (Hf a b) as [a1 ->]; [left|]. simpl.
  apply IH. intros. apply Hf. by right.
Qed.

Lemma foldlM_total_inv {A B : Type} (P : A → Prop) (f : A → B → result A) l :
  (∀ a b, b ∈ l → P a → ∃ a', f a b = Ok a' ∧ P a') →
  ∀ a, P a → ∃ a', foldlM f a l = Ok a' ∧ P a'.
Proof.
  induction l as [|b l IH]; intros Hf a Ha; simpl; [eauto|].
  destruct (Hf a b) as (a1 & -> & Ha1); [left|done|]. simpl.
  apply IH; [|done]. intros. apply Hf; [by right|done].
Qed.

(** ** Flat records *)

Lemma flat_record_lookup (r : record) k v :
  flat_record r → lookup_prop r k = Some v →
  k ≠ "hasOwnProperty" ∧ k ≠ "__proto__" ∧ is_scalar v = true.
Proof.
  intros Hr Hk%lookup_prop_Some_elem.
  by apply (proj1 (Forall_forall _ _) Hr (k, v)).
Qed.

Lemma flat_record_get (r : record) k :
  flat_record r → is_scalar (get r k) = true.
Proof.
  intros Hr. unfold get. destruct (lookup_prop r k) eqn:Hk; [|done].
  simpl. by eapply flat_record_lookup.
Qed.

Lemma flat_record_not_own (r : record) k :
  flat_record r → k = "hasOwnProperty" ∨ k = "__proto__" →
  hasOwnProperty r k = false.
Proof.
  intros Hr Hk. unfold hasOwnProperty.
  destruct (lookup_prop r k) eqn:Hl; [|done].
  destruct (flat_record_lookup _ _ _ Hr Hl) as (? & ? & _). by destruct Hk.
Qed.

Lemma flat_set_prop (r : record) k v :
  flat_record r → k ≠ "hasOwnProperty" → k ≠ "__proto__" →
  is_scalar v = true → flat_record (set_prop r k v).
Proof.
  intros Hr ? ? ?. apply Forall_forall.
  intros [k' v'] [[= -> ->]|Hin]%elem_of_set_prop; [done|].
  by apply (proj1 (Forall_forall _ _) Hr).
Qed.

Lemma flat_heap_lookup (h : heap) m : flat_heap h → flat_record (h !!! m).
Proof.
  intros Hh. rewrite list_lookup_total_alt.
  destruct (h !! m) as [r|] eqn:Hm; simpl; [|constructor].
  by apply (Forall_lookup_1 _ _ _ _ Hh Hm).
Qed.

Lemma flat_heap_insert (h : heap) d r :
  flat_heap h → flat_record r → flat_heap (<[d := r]> h).
Proof. intros. by apply Forall_insert. Qed.

Lemma read_prop_get (r : record) k :
  inherited k = false ∨ hasOwnProperty r k = true →
  read_prop r k = Ok (get r k).
Proof.
  unfold read_prop, get, hasOwnProperty.
  destruct (lookup_prop r k); [done|]. by intros [->|?].
Qed.

Lemma concat_value_Ok v v' : concat_value v = Ok v' → v' = v.
Proof. unfold concat_value. destruct (is_scalar v); [by intros [= ->]|done]. Qed.

Lemma concat_value_scalar v : is_scalar v = true → concat_value v = Ok v.
Proof. unfold concat_value. by intros ->. Qed.

(** ** What a call writes *)

Lemma only_writes_refl written st : only_writes written st st.
Proof. split; [done|]. split; done. Qed.

Lemma only_writes_trans written st1 st2 st3 :
  only_writes written st1 st2 → only_writes written st2 st3 →
  only_writes written st1 st3.
Proof.
  intros (Hl1 & Hp1 & Hf1) (Hl2 & Hp2 & Hf2).
  split; [congruence|]. split; [by etrans|].
  intros m Hm. rewrite Hf2, Hf1 by done. done.
Qed.

Lemma only_writes_weaken (written written' : nat → Prop) st st' :
  (∀ m, written m → written' m) →
  only_writes written st st' → only_writes written' st st'.
Proof.
  intros Hsub (Hl & Hp & Hf). split; [done|]. split; [done|]. auto.
Qed.

Lemma writelog_only_writes written e st :
  only_writes written st (writelog e st).
Proof.
  split; [done|]. split; [|done]. simpl. by apply prefix_app_r.
Qed.

Lemma store_only_writes d k v st :
  only_writes (λ m, m = d) st (store d k v st).
Proof.
  split; [apply length_insert|]. split; [done|].
  intros m Hm. apply list_lookup_insert_ne. congruence.
Qed.

Lemma only_writes_lookup_total d st st' m :
  only_writes (λ m, m = d) st st' → m ≠ d →
  st_heap st' !!! m = st_heap st !!! m.
Proof.
  intros (_ & _ & Hframe) Hm. rewrite !list_lookup_total_alt.
  by rewrite Hframe.
Qed.

(** ** The merge in the heap *)

Section MergeHeap.
Implicit Types (st : state) (d m : loc) (l : list loc).

Lemma heap_insert_self (h : heap) d : d < length h → <[d := h !!! d]> h = h.
Proof. intros. by apply list_insert_id, list_lookup_lookup_total_lt. Qed.

(** A call of [merge_field] that returns has written at most one field of
    the oldest record, with the value that the next record holds. *)
Lemma merge_field_Ok d m st k st' :
  merge_field d m st k = Ok st' →
  hasOwnProperty (st_heap st !!! d) "hasOwnProperty" = false ∧
  st_log st `prefix_of` st_log st' ∧
  (st_heap st' = st_heap st ∨
   st_heap st' =
   <[d := set_prop (st_heap st !!! d) k (get (st_heap st !!! m) k)]>
     (st_heap st)).
Proof.
  unfold merge_field. cbv zeta. intros Hrun.
  destruct (hasOwnProperty (st_heap st !!! d) "hasOwnProperty"); [done|].
  split; [done|].
  destruct (negb (hasOwnProperty (st_heap st !!! d) k)).
  { case_bool_decide.
    - destruct (get (st_heap st !!! m) k); simplify_eq; simpl;
        (split; [by apply prefix_app_r|by left]).
    - injection Hrun as <-. simpl. split; [by apply prefix_app_r|by right]. }
  destruct (negb (strict_eq _ _)).
  - apply bind_Ok in Hrun as (vold & _ & Hrun).
    apply bind_Ok in Hrun as (vnew & ->%concat_value_Ok & [= <-]). simpl.
    split; [by apply prefix_app_r|by right].
  - injection Hrun as <-. split; [done|by left].
Qed.

Lemma merge_field_only_writes d m st k st' :
  merge_field d m st k = Ok st' → only_writes (λ m, m = d) st st'.
Proof.
  intros (_ & Hlog & [Hh|Hh])%merge_field_Ok; unfold only_writes; rewrite Hh.
  - done.
  - split; [apply length_insert|]. split; [done|].
    intros m' Hm'. apply list_lookup_insert_ne. congruence.
Qed.

Lemma merge_field_heap d m st k st' :
  merge_field d m st k = Ok st' → k ≠ "__proto__" →
  d < length (st_heap st) →
  st_heap st' =
  <[d := absorb_field (st_heap st !!! m) (st_heap st !!! d) k]> (st_heap st).
Proof.
  unfold merge_field, absorb_field. cbv zeta. intros Hrun Hk Hd.
  destruct (hasOwnProperty (st_heap st !!! d) "hasOwnProperty"); [done|].
  destruct (negb (hasOwnProperty (st_heap st !!! d) k)).
  { rewrite bool_decide_eq_false_2 in Hrun by done. by injection Hrun as <-. }
  destruct (negb (strict_eq _ _)).
  - apply bind_Ok in Hrun as (vold & _ & Hrun).
    by apply bind_Ok in Hrun as (vnew & ->%concat_value_Ok & [= <-]).
  - injection Hrun as <-. by rewrite heap_insert_self.
Qed.

(** On flat records [merge_field] returns, and the records stay flat. *)
Lemma store_keeps_own (h : heap) d m k v f :
  hasOwnProperty (h !!! m) f = true →
  hasOwnProperty (<[d := set_prop (h !!! d) k v]> h !!! m) f = true.
Proof.
  intros Hf. destruct (decide (m = d)) as [->|Hm].
  - destruct (decide (d < length h)).
    + rewrite list_lookup_total_insert_eq by done.
      apply hasOwnProperty_true. rewrite lookup_set_prop.
      case_bool_decide; [eauto|]. by apply hasOwnProperty_true.
    + by rewrite list_insert_ge by lia.
  - by rewrite list_lookup_total_insert_ne.
Qed.

Lemma merge_field_flat d m st k :
  flat_heap (st_heap st) → hasOwnProperty (st_heap st !!! m) k = true →
  ∃ st', merge_field d m st k = Ok st' ∧ flat_heap (st_heap st') ∧
    ∀ f, hasOwnProperty (st_heap st !!! m) f = true →
         hasOwnProperty (st_heap st' !!! m) f = true.
Proof.
  intros Hflat Hk.
  pose proof (flat_heap_lookup _ d Hflat) as Hold.
  pose proof (flat_heap_lookup _ m Hflat) as Hnext.
  apply hasOwnProperty_true in Hk as [v Hv].
  destruct (flat_record_lookup _ _ _ Hnext Hv) as (Hk1 & Hk2 & Hscalar).
  unfold merge_field. cbv zeta.
  rewrite (flat_record_not_own _ "hasOwnProperty") by auto.
  rewrite (get_lookup_prop _ _ _ Hv).
  assert (flat_heap (<[d := set_prop (st_heap st !!! d) k v]> (st_heap st)))
    as Hflat' by (by apply flat_heap_insert, flat_set_prop).
  destruct (negb (hasOwnProperty (st_heap st !!! d) k)).
  { rewrite bool_decide_eq_false_2 by done. eexists. split; [done|].
    split; [done|]. intros f. simpl. apply store_keeps_own. }
  destruct (negb (strict_eq _ _)).
  - rewrite !concat_value_scalar by (done || by apply flat_record_get).
    simpl. eexists. split; [done|]. split; [done|]. intros f. simpl.
    apply store_keeps_own.
  - eauto.
Qed.

Lemma merge_fields_other d m ks : ∀ st st',
  foldlM (merge_field d m) st ks = Ok st' →
  m ≠ d → d < length (st_heap st) → "__proto__" ∉ ks →
  st_heap st' =
  <[d := foldl (absorb_field (st_heap st !!! m)) (st_heap st !!! d) ks]>
    (st_heap st).
Proof.
  induction ks as [|k ks IH]; intros st st'; simpl.
  - intros [= <-] _ Hd _. by rewrite heap_insert_self.
  - intros (st1 & Hk & Hks)%bind_Ok Hm Hd [Hne Hnot]%not_elem_of_cons.
    apply merge_field_heap in Hk; [|done..].
    apply IH in Hks; [|done|by rewrite Hk, length_insert|done].
    rewrite Hks, Hk.
    rewrite list_lookup_total_insert_ne by done.
    rewrite list_lookup_total_insert_eq by done.
    by rewrite list_insert_insert_eq.
Qed.

Lemma merge_fields_self d ks : ∀ st st',
  foldlM (merge_field d d) st ks = Ok st' →
  (∀ k, k ∈ ks → hasOwnProperty (st_heap st !!! d) k = true) →
  st' = st.
Proof.
  induction ks as [|k ks IH]; intros st st'; simpl; [by intros [= <-]|].
  intros (st1 & Hk & Hks)%bind_Ok Hown.
  assert (st1 = st) as ->.
  { revert Hk. unfold merge_field, strict_eq. cbv zeta.
    destruct (hasOwnProperty _ "hasOwnProperty"); [done|].
    rewrite Hown by left. simpl.
    rewrite bool_decide_eq_true_2 by done. by intros [= <-]. }
  apply IH; [done|]. intros. apply Hown. by right.
Qed.

(** A bucket member that is the oldest record itself changes nothing. *)
Lemma merge_record_self d st st' : merge_record d st d = Ok st' → st' = st.
Proof.
  unfold merge_record. intros Hrun. apply (merge_fields_self _ _ _ _ Hrun).
  intros k Hk. apply hasOwnProperty_true. by apply elem_of_Object_keys.
Qed.

Lemma merge_record_other d m st st' :
  merge_record d st m = Ok st' → m ≠ d → d < length (st_heap st) →
  hasOwnProperty (st_heap st !!! m) "__proto__" = false →
  st_heap st' =
  <[d := absorb (st_heap st !!! d) (st_heap st !!! m)]> (st_heap st).
Proof.
  unfold merge_record. intros Hrun Hm Hd Hproto.
  apply (merge_fields_other _ _ _ _ _ Hrun); [done..|].
  intros Hin%elem_of_Object_keys%hasOwnProperty_true. congruence.
Qed.

Lemma merge_record_only_writes d st m st' :
  merge_record d st m = Ok st' → only_writes (λ m, m = d) st st'.
Proof.
  unfold merge_record.
  apply (foldlM_invariant (λ s, only_writes (λ m, m = d) st s));
    [|apply only_writes_refl].
  intros s k s' Hs Hk. eapply only_writes_trans; [done|].
  by eapply merge_field_only_writes.
Qed.

Lemma merge_record_flat d st m :
  flat_heap (st_heap st) →
  ∃ st', merge_record d st m = Ok st' ∧ flat_heap (st_heap st').
Proof.
  intros Hflat. unfold merge_record.
  set (ks := Object_keys (st_heap st !!! m)).
  destruct (foldlM_total_inv
              (λ s, flat_heap (st_heap s) ∧
                    ∀ k, k ∈ ks → hasOwnProperty (st_heap s !!! m) k = true)
              (merge_field d m) ks) with (a := st) as (st' & Hrun & Hflat' & _).
  - intros s k Hk [Hs Hown].
    destruct (merge_field_flat d m s k Hs (Hown k Hk))
      as (s' & Hrun & Hs' & Hkeep).
    exists s'. split; [done|]. split; [done|]. intros. by apply Hkeep, Hown.
  - split; [done|]. intros k Hk. apply hasOwnProperty_true.
    by apply elem_of_Object_keys.
  - eauto.
Qed.

Lemma accumulate_ext (h h' : heap) d l : ∀ acc,
  (∀ m, m ≠ d → h' !!! m = h !!! m) →
  accumulate h' d acc l = accumulate h d acc l.
Proof.
  induction l as [|m l IH]; intros acc Hh; [done|].
  unfold accumulate in *. simpl.
  destruct (decide (m = d)); [by apply IH|]. rewrite Hh by done. by apply IH.
Qed.

(** The heap after the bucket members [l] have been processed: only the
    record at [d] has changed, and it holds what [accumulate] computes. *)
Lemma merge_records_heap d l : ∀ st st',
  foldlM (merge_record d) st l = Ok st' →
  d < length (st_heap st) →
  (∀ m, m ∈ l → m ≠ d →
        hasOwnProperty (st_heap st !!! m) "__proto__" = false) →
  st_heap st' =
  <[d := accumulate (st_heap st) d (st_heap st !!! d) l]> (st_heap st).
Proof.
  induction l as [|m l IH]; intros st st'; simpl.
  - intros [= <-] Hd _. by rewrite heap_insert_self.
  - intros (st1 & Hm & Hl)%bind_Ok Hd Hproto.
    assert (∀ p, p ∈ l → p ≠ d →
              hasOwnProperty (st_heap st !!! p) "__proto__" = false)
      as Hproto' by (intros; apply Hproto; [by right|done]).
    destruct (decide (m = d)) as [->|Hne].
    + apply merge_record_self in Hm as ->.
      rewrite (IH _ _ Hl) by done.
      unfold accumulate. simpl. by rewrite ?decide_True.
    + apply merge_record_other in Hm; [|done..|apply Hproto; [left|done]].
      rewrite (IH _ _ Hl); rewrite Hm.
      * rewrite list_lookup_total_insert_eq, list_insert_insert_eq by done.
        f_equal. apply accumulate_ext. intros. by apply list_lookup_total_insert_ne.
      * by rewrite length_insert.
      * intros p Hp Hpd. rewrite list_lookup_total_insert_ne by done.
        by apply Hproto'.
Qed.

Lemma merge_records_only_writes d l : ∀ st st',
  foldlM (merge_record d) st l = Ok st' → only_writes (λ m, m = d) st st'.
Proof.
  intros st st'.
  apply (foldlM_invariant (λ s, only_writes (λ m, m = d) st s));
    [|apply only_writes_refl].
  intros s m s' Hs Hm. eapply only_writes_trans; [done|].
  by eapply merge_record_only_writes.
Qed.

Lemma merge_records_flat d l : ∀ st,
  flat_heap (st_heap st) →
  ∃ st', foldlM (merge_record d) st l = Ok st' ∧ flat_heap (st_heap st').
Proof.
  intros st. apply (foldlM_total_inv (λ s, flat_heap (st_heap s))).
  intros s m _. apply merge_record_flat.
Qed.

Lemma consolidateDuplicates_cons d ds key st :
  consolidateDuplicates (d :: ds) key st =
  v ← read_prop (st_heap st !!! d) key ≫= concat_value;
  entryDate ← concat_value (get (st_heap st !!! d) "entryDate");
  st' ← foldlM (merge_record d)
          (writelog (LogUpdatingRecord key v entryDate)
             (writelog (LogConsolidating (S (length ds)) key) st)) (d :: ds);
  Ok (d, st').
Proof. done. Qed.

(** [consolidateDuplicates] returns the first element of the bucket, with
    the state in which the loop over the bucket ends. *)
Lemma consolidateDuplicates_Ok dupes key st oldestRecord st' :
  consolidateDuplicates dupes key st = Ok (oldestRecord, st') →
  head dupes = Some oldestRecord ∧
  ∃ v entryDate,
    foldlM (merge_record oldestRecord)
      (writelog (LogUpdatingRecord key v entryDate)
         (writelog (LogConsolidating (length dupes) key) st)) dupes = Ok st'.
Proof.
  unfold consolidateDuplicates. destruct dupes as [|d ds]; [done|].
  cbv zeta.
  intros (v & _ & (e & _ & (st1 & Hrun & [= <- <-])%bind_Ok)%bind_Ok)%bind_Ok.
  split; [done|]. eauto.
Qed.

Lemma consolidateDuplicates_only_writes dupes key st oldestRecord st' :
  consolidateDuplicates dupes key st = Ok (oldestRecord, st') →
  head dupes = Some oldestRecord ∧
  only_writes (λ m, m = oldestRecord) st st'.
Proof.
  intros [Hhead (v & e & Hrun)]%consolidateDuplicates_Ok. split; [done|].
  apply merge_records_only_writes in Hrun.
  eapply only_writes_trans; [|done].
  eapply only_writes_trans; apply writelog_only_writes.
Qed.

(** On flat records, under a key that [Object.prototype] does not have,
    [consolidateDuplicates] returns, and the records stay flat. *)
Lemma consolidateDuplicates_flat d ds key st :
  flat_heap (st_heap st) → inherited key = false →
  ∃ st', consolidateDuplicates (d :: ds) key st = Ok (d, st') ∧
         flat_heap (st_heap st').
Proof.
  intros Hflat Hkey. rewrite consolidateDuplicates_cons.
  pose proof (flat_heap_lookup _ d Hflat) as Hd.
  rewrite read_prop_get, Ok_bind by auto.
  rewrite !concat_value_scalar, !Ok_bind by by apply flat_record_get.
  match goal with
  | |- context [foldlM (merge_record d) ?s (d :: ds)] =>
      destruct (merge_records_flat d (d :: ds) s Hflat) as (st' & Hrun & Hst')
  end.
  exists st'. split; [|done]. by rewrite Hrun.
Qed.

Lemma consolidateDuplicates_heap d ds key st :
  d < length (st_heap st) → flat_heap (st_heap st) →
  inherited key = false →
  ∃ st', consolidateDuplicates (d :: ds) key st = Ok (d, st') ∧
         flat_heap (st_heap st') ∧
         st_heap st' =
         <[d := accumulate (st_heap st) d (st_heap st !!! d) ds]>
           (st_heap st).
Proof.
  intros Hd Hflat Hkey.
  destruct (consolidateDuplicates_flat d ds key st Hflat Hkey)
    as (st' & Hrun & Hflat').
  exists st'. split; [done|]. split; [done|].
  apply consolidateDuplicates_Ok in Hrun as [_ (v & e & Hrun)].
  apply merge_records_heap in Hrun; [|done|].
  - simpl in Hrun. rewrite Hrun. unfold accumulate. simpl.
    by rewrite ?decide_True.
  - intros m _ _. simpl. apply flat_record_not_own; [|by right].
    by apply flat_heap_lookup.
Qed.

Lemma state_before_heap d ds st i :
  d < length (st_heap st) → flat_heap (st_heap st) →
  st_heap (state_before st (d :: ds) i) =
  <[d := accumulate (st_heap st) d (st_heap st !!! d) (take i (d :: ds))]>
    (st_heap st).
Proof.
  intros Hd Hflat. unfold state_before. simpl hd.
  destruct (merge_records_flat d (take i (d :: ds)) st Hflat)
    as (st' & Hrun & _).
  rewrite Hrun. apply (merge_records_heap _ _ _ _ Hrun); [done|].
  intros m _ _. apply flat_record_not_own; [|by right].
  by apply flat_heap_lookup.
Qed.

Lemma accumulated_eq d ds st i :
  d < length (st_heap st) → flat_heap (st_heap st) →
  accumulated st (d :: ds) i =
  accumulate (st_heap st) d (st_heap st !!! d) (take i (d :: ds)).
Proof.
  intros Hd Hflat. unfold accumulated. simpl hd.
  rewrite state_before_heap by done.
  by rewrite list_lookup_total_insert_eq.
Qed.

Lemma state_before_other d ds st i m :
  m ≠ d → d < length (st_heap st) → flat_heap (st_heap st) →
  st_heap (state_before st (d :: ds) i) !!! m = st_heap st !!! m.
Proof.
  intros Hm Hd Hflat. rewrite state_before_heap by done.
  by rewrite list_lookup_total_insert_ne.
Qed.

End MergeHeap.

(** ** What the accumulated record holds *)

Section Accumulate.
Variables (h : heap) (d : loc).
Implicit Types (acc : record) (l : list loc) (f : string).

Lemma accumulate_snoc acc l m :
  accumulate h d acc (l ++ [m]) =
  if decide (m = d) then accumulate h d acc l
  else absorb (accumulate h d acc l) (h !!! m).
Proof. unfold accumulate. by rewrite foldl_snoc. Qed.

Lemma accumulate_cons_self acc l :
  accumulate h d acc (d :: l) = accumulate h d acc l.
Proof. unfold accumulate. simpl. by rewrite ?decide_True. Qed.

(** The fields of the accumulated record: those it had and those of the
    members merged into it. *)
Lemma hasOwnProperty_accumulate l : ∀ acc f,
  hasOwnProperty (accumulate h d acc l) f = true ↔
  hasOwnProperty acc f = true ∨
  ∃ m, m ∈ l ∧ m ≠ d ∧ hasOwnProperty (h !!! m) f = true.
Proof.
  induction l as [|m l IH] using rev_ind; intros acc f.
  - split; [by left|]. intros [?| (m & Hnil & _)]; [done|].
    by apply elem_of_nil in Hnil.
  - rewrite accumulate_snoc. destruct (decide (m = d)) as [->|Hm].
    + split.
      * intros [?| (m & ? & ? & ?)]%IH; [by left|].
        right. exists m. rewrite elem_of_app. eauto.
      * intros [?| (m & [?| ->%list_elem_of_singleton]%elem_of_app & ? & ?)];
          apply IH; [by left| |done].
        right. eauto.
    + split.
      * intros Hacc. apply hasOwnProperty_true in Hacc.
        rewrite lookup_absorb in Hacc.
        destruct (lookup_prop (h !!! m) f) as [v|] eqn:Hv.
        -- right. exists m. rewrite elem_of_app, list_elem_of_singleton.
           split; [by right|]. split; [done|].
           apply hasOwnProperty_true. eauto.
        -- apply hasOwnProperty_true, IH in Hacc as [?| (m' & ? & ? & ?)];
             [by left|].
           right. exists m'. rewrite elem_of_app. eauto.
      * intros Hor. apply hasOwnProperty_true. rewrite lookup_absorb.
        destruct (lookup_prop (h !!! m) f) as [v|] eqn:Hv; [eauto|].
        apply hasOwnProperty_true, IH.
        destruct Hor
          as [?| (m' & [?| ->%list_elem_of_singleton]%elem_of_app & ? & Hf)];
          [by left|right; eauto|].
        apply hasOwnProperty_true in Hf. rewrite Hv in Hf. by destruct Hf.
Qed.

(** A member that carries [f] and is followed only by members that do not
    decides the value of [f]. *)
Lemma get_accumulate_last acc pre m post f :
  m ≠ d → hasOwnProperty (h !!! m) f = true →
  (∀ p, p ∈ post → p = d ∨ hasOwnProperty (h !!! p) f = false) →
  get (accumulate h d acc (pre ++ m :: post)) f = get (h !!! m) f.
Proof.
  intros Hm Hf. induction post as [|p post IH] using rev_ind; intros Hpost.
  - rewrite accumulate_snoc, decide_False by done.
    unfold get. rewrite lookup_absorb.
    apply hasOwnProperty_true in Hf as [v ->]. done.
  - replace (pre ++ m :: post ++ [p]) with ((pre ++ m :: post) ++ [p])
      by by rewrite <-app_assoc.
    rewrite accumulate_snoc.
    assert (get (accumulate h d acc (pre ++ m :: post)) f = get (h !!! m) f)
      as IH' by (apply IH; intros; apply Hpost, elem_of_app; by left).
    destruct (decide (p = d)); [done|].
    destruct (Hpost p) as [?|Hp]; [apply elem_of_app; right; left|done|].
    unfold get in *. rewrite lookup_absorb.
    unfold hasOwnProperty in Hp. by destruct (lookup_prop (h !!! p) f).
Qed.

(** Members that agree with the accumulated record on [f] leave it alone. *)
Lemma get_accumulate_agree l : ∀ acc f,
  (∀ m, m ∈ l → hasOwnProperty (h !!! m) f = true →
        get (h !!! m) f = get acc f) →
  get (accumulate h d acc l) f = get acc f.
Proof.
  induction l as [|m l IH] using rev_ind; intros acc f Hl; [done|].
  rewrite accumulate_snoc.
  assert (get (accumulate h d acc l) f = get acc f) as IH'
    by (apply IH; intros; apply Hl; [apply elem_of_app; by left|done]).
  destruct (decide (m = d)); [done|].
  unfold get at 1. rewrite lookup_absorb.
  destruct (lookup_prop (h !!! m) f) as [v|] eqn:Hv; [|done].
  simpl. rewrite <-(Hl m).
  - by rewrite (get_lookup_prop _ _ _ Hv).
  - apply elem_of_app. right. left.
  - apply hasOwnProperty_true. eauto.
Qed.

End Accumulate.

(** ** Differing writes *)

Section Writers.
Variables (st : state) (d : loc) (ds : list loc).
Hypothesis Hd : d < length (st_heap st).
Hypothesis Hflat : flat_heap (st_heap st).

Local Abbreviation h := (st_heap st).
Local Abbreviation acc_at i := (accumulate h d (h !!! d) (take i (d :: ds))).

Lemma differing_write_inv i f :
  differing_write st (d :: ds) i f →
  ∃ m, (d :: ds) !! i = Some m ∧ m ≠ d ∧
       hasOwnProperty (h !!! m) f = true ∧
       (hasOwnProperty (acc_at i) f = false ∨
        get (h !!! m) f ≠ get (acc_at i) f).
Proof.
  intros (m & Hi & Hnext & Hdiff). exists m.
  destruct (decide (m = d)) as [->|Hm].
  - change (st_heap (state_before st (d :: ds) i) !!! d)
      with (accumulated st (d :: ds) i) in Hnext, Hdiff.
    destruct Hdiff as [Hno|Hne]; [congruence|done].
  - rewrite accumulated_eq in Hdiff by done.
    rewrite state_before_other in Hnext, Hdiff by done. done.
Qed.

Lemma differing_write_intro i m f :
  (d :: ds) !! i = Some m → m ≠ d →
  hasOwnProperty (h !!! m) f = true →
  hasOwnProperty (acc_at i) f = false ∨ get (h !!! m) f ≠ get (acc_at i) f →
  differing_write st (d :: ds) i f.
Proof.
  intros Hi Hm Hf Hdiff. exists m. split; [done|]. cbv zeta.
  by rewrite accumulated_eq, state_before_other.
Qed.

(** Past the last differing write of [f], the accumulated record holds the
    value written there. *)
Lemma get_after_last_write f i m n :
  (d :: ds) !! i = Some m → i < n →
  differing_write st (d :: ds) i f →
  (∀ j, i < j → j < n → ¬ differing_write st (d :: ds) j f) →
  get (acc_at n) f = get (h !!! m) f.
Proof.
  intros Hi Hin Hw. induction n as [|n IH]; intros Hlater; [lia|].
  destruct ((d :: ds) !! n) as [p|] eqn:Hn.
  2:{ apply lookup_ge_None in Hn. rewrite take_ge by lia.
      assert (i < n) by (apply lookup_lt_Some in Hi; lia).
      rewrite <-(take_ge (d :: ds) n) by lia.
      apply IH; [done|]. intros. apply Hlater; lia. }
  rewrite (take_S_r _ _ _ Hn), accumulate_snoc.
  destruct (decide (i = n)) as [->|Hne].
  - assert (p = m) as -> by congruence.
    apply differing_write_inv in Hw as (m' & Hm' & Hmd & Hf & _).
    assert (m' = m) as -> by congruence.
    rewrite decide_False by done. unfold get. rewrite lookup_absorb.
    apply hasOwnProperty_true in Hf as [v ->]. done.
  - assert (get (acc_at n) f = get (h !!! m) f) as IH'
      by (apply IH; [lia|intros; apply Hlater; lia]).
    destruct (decide (p = d)) as [->|Hp]; [done|].
    unfold get at 1. rewrite lookup_absorb.
    destruct (lookup_prop (h !!! p) f) as [v|] eqn:Hv; [|done].
    simpl. rewrite <-IH'.
    destruct (decide (hasOwnProperty (acc_at n) f = true ∧
                      get (h !!! p) f = get (acc_at n) f)) as [[_ <-]|Hno].
    + by rewrite (get_lookup_prop _ _ _ Hv).
    + destruct (Hlater n); [lia..|].
      apply (differing_write_intro n p); [done..| |].
      * apply hasOwnProperty_true. eauto.
      * destruct (hasOwnProperty (acc_at n) f); [|by left].
        right. intros ?. by apply Hno.
Qed.

(** A field that no member writes keeps what the oldest record had. *)
Lemma lookup_without_write f n :
  (∀ j, j < n → ¬ differing_write st (d :: ds) j f) →
  lookup_prop (acc_at n) f = lookup_prop (h !!! d) f.
Proof.
  induction n as [|n IH]; intros Hno; [done|].
  assert (lookup_prop (acc_at n) f = lookup_prop (h !!! d) f) as IH'
    by (apply IH; intros; apply Hno; lia).
  destruct ((d :: ds) !! n) as [p|] eqn:Hn.
  2:{ apply lookup_ge_None in Hn. rewrite take_ge by lia.
      by rewrite <-(take_ge (d :: ds) n) by lia. }
  rewrite (take_S_r _ _ _ Hn), accumulate_snoc.
  destruct (decide (p = d)) as [->|Hp]; [done|].
  rewrite lookup_absorb.
  destruct (lookup_prop (h !!! p) f) as [v|] eqn:Hv; [|done].
  destruct (lookup_prop (acc_at n) f) as [w|] eqn:Hw.
  - destruct (decide (v = w)) as [->|Hne]; [congruence|].
    destruct (Hno n); [lia|].
    apply (differing_write_intro n p); [done..| |].
    + apply hasOwnProperty_true. eauto.
    + right. by rewrite (get_lookup_prop _ _ _ Hv), (get_lookup_prop _ _ _ Hw).
  - destruct (Hno n); [lia|].
    apply (differing_write_intro n p); [done..| |].
    + apply hasOwnProperty_true. eauto.
    + left. unfold hasOwnProperty. by rewrite Hw.
Qed.

End Writers.

#[global] Instance differing_write_dec st dupes i f :
  Decision (differing_write st dupes i f).
Proof.
  unfold differing_write. destruct (dupes !! i) as [m|].
  - cbv zeta.
    destruct (decide
      (hasOwnProperty (st_heap (state_before st dupes i) !!! m) f = true ∧
       (hasOwnProperty (accumulated st dupes i) f = false ∨
        get (st_heap (state_before st dupes i) !!! m) f
        ≠ get (accumulated st dupes i) f))) as [Hyes|Hno].
    + left. eauto.
    + right. intros (m' & [= <-] & Hm'). by apply Hno.
  - right. by intros (m & [=] & _).
Defined.

(** Among the first [n] positions either one is the last to write [f], or
    none writes it. *)
Lemma last_write_or_none st dupes f n :
  (∃ i, i < n ∧ differing_write st dupes i f ∧
        ∀ j, i < j → j < n → ¬ differing_write st dupes j f) ∨
  (∀ j, j < n → ¬ differing_write st dupes j f).
Proof.
  induction n as [|n IH]; [right; lia|].
  destruct (decide (differing_write st dupes n f)) as [Hn|Hn].
  { left. exists n. split; [lia|]. split; [done|]. lia. }
  destruct IH as [(i & Hi & Hw & Hlater)|Hnone].
  - left. exists i. split; [lia|]. split; [done|]. intros j Hij Hj.
    destruct (decide (j = n)) as [->|]; [done|]. apply Hlater; lia.
  - right. intros j Hj. destruct (decide (j = n)) as [->|]; [done|].
    apply Hnone. lia.
Qed.

Lemma differing_write_lt st dupes i f :
  differing_write st dupes i f → i < length dupes.
Proof. intros (m & Hi & _). by apply lookup_lt_Some in Hi. Qed.

(** ** Claims about [consolidateDuplicates] *)






(** In scenario A the second record writes [name], and nothing before it. *)
Example scenarioA_name_written :
  differing_write (load scenarioA).2 [0; 1] 1 "name" ∧
  ¬ differing_write (load scenarioA).2 [0; 1] 0 "name".
Proof.
  split.
  - exists 1. split; [done|]. vm_compute. split; [done|]. by right.
  - intros (m & [= <-] & _ & [Hno|Hne]); vm_compute in *; congruence.
Qed.





(** ** Claims about [getConsolidatedUserList] *)

(** Every bucket contributes its first element. *)
Lemma consolidate_bucket_Ok key consolidatedUsers st b acc' :
  consolidate_bucket key (consolidatedUsers, st) b = Ok acc' →
  ∃ u, head b = Some u ∧ acc'.1 = consolidatedUsers ++ [u].
Proof.
  unfold consolidate_bucket. destruct (1 <? length b)%nat eqn:Hlen.
  - intros ([merged st'] & [Hhead _]%consolidateDuplicates_Ok
            & [= <-])%bind_Ok. eauto.
  - destruct b as [|u ?]; [done|]. intros [= <-]. eauto.
Qed.

Lemma consolidate_buckets_Ok key bs : ∀ acc acc',
  foldlM (consolidate_bucket key) acc bs = Ok acc' →
  ∃ contributions,
    acc'.1 = acc.1 ++ contributions ∧
    Forall2 (λ u b, head b = Some u) contributions bs.
Proof.
  induction bs as [|b bs IH]; intros [users st] acc'; simpl.
  - intros [= <-]. exists []. by rewrite app_nil_r.
  - intros (acc1 & Hb & Hbs)%bind_Ok.
    apply consolidate_bucket_Ok in Hb as (u & Hu & Hacc1).
    apply IH in Hbs as (us & Hus & Hall).
    exists (u :: us). split; [|by constructor].
    rewrite Hus, Hacc1. by rewrite <-app_assoc.
Qed.

(** What holds of the empty hash and is kept by every push into a bucket
    holds of the index. *)
Lemma transformUsersToHashByKeys_invariant
  (P : list (string * list (string * list nat)) → Prop) h users keys userHash :
  P (initUserHash keys) →
  (∀ uh activeKey v user uh',
     P uh → push_to_bucket uh activeKey v user = Ok uh' → P uh') →
  transformUsersToHashByKeys h users keys = Ok userHash →
  P userHash.
Proof.
  intros Hinit Hpush. unfold transformUsersToHashByKeys.
  intros ([keyList userHash'] & Hfold & [= <-])%bind_Ok.
  pose (Q := λ acc : list (string * keyListEntry)
                     * list (string * list (string * list nat)), P acc.2).
  apply (foldlM_invariant Q (index_user h)) in Hfold; [done| |done].
  intros acc user acc' Hacc.
  apply (foldlM_invariant Q); [|done].
  intros [keyList0 userHash0] j acc0 Hacc0. unfold index_user_by.
  destruct (lookup_prop keyList0 j) as [entry|]; [|done].
  intros (userHash1 & Hitems & [= <-])%bind_Ok.
  revert Hitems. apply (foldlM_invariant P); [|done].
  intros uh item uh' Huh. unfold match_list_item.
  destruct (loose_eq item _) as [[]|]; simpl; [|by intros [= <-]|done].
  by apply Hpush.
Qed.

Lemma lookup_initUserHash keys k :
  is_Some (lookup_prop (initUserHash keys) k) ↔ k ∈ keys.
Proof.
  unfold initUserHash. induction keys as [|k' keys IH] using rev_ind; simpl.
  - rewrite elem_of_nil. split; [by intros [? ?]|done].
  - rewrite foldl_snoc, lookup_set_prop, elem_of_app, list_elem_of_singleton.
    case_bool_decide; subst.
    + split; [by right|eauto].
    + rewrite IH. split; [by left|]. intros [?|?]; [done|congruence].
Qed.

Lemma elem_of_initUserHash keys (e : string * list (string * list nat)) :
  e ∈ initUserHash keys → e.2 = [].
Proof.
  unfold initUserHash. induction keys as [|k' keys IH] using rev_ind; simpl.
  - by intros ?%elem_of_nil.
  - rewrite foldl_snoc. intros [->|?]%elem_of_set_prop; [done|auto].
Qed.

Lemma push_to_bucket_Ok userHash activeKey v user userHash' :
  push_to_bucket userHash activeKey v user = Ok userHash' →
  ∃ hashByKey name,
    lookup_prop userHash activeKey = Some hashByKey ∧
    userHash' =
      set_prop userHash activeKey
        (set_prop hashByKey name
           (default [] (lookup_prop hashByKey name) ++ [user])).
Proof.
  unfold push_to_bucket.
  destruct (lookup_prop userHash activeKey) as [hashByKey|]; [|done].
  destruct (ToString v) as [name|]; [simpl|done].
  case_bool_decide; [done|].
  destruct (_ || _); [done|]. intros [= <-]. eauto.
Qed.

(** The hash has a partition for every configured key. *)
Lemma transformUsersToHashByKeys_keys h users keys userHash k :
  transformUsersToHashByKeys h users keys = Ok userHash →
  is_Some (lookup_prop userHash k) ↔ k ∈ keys.
Proof.
  apply (transformUsersToHashByKeys_invariant
           (λ uh, is_Some (lookup_prop uh k) ↔ k ∈ keys)).
  - apply lookup_initUserHash.
  - intros uh activeKey v user uh' Huh
      (hashByKey & name & Hkey & ->)%push_to_bucket_Ok.
    rewrite lookup_set_prop. case_bool_decide; subst; [|done].
    rewrite <-Huh, Hkey. split; eauto.
Qed.

(** No bucket of the index is empty. *)
Lemma transformUsersToHashByKeys_inhabited h users keys userHash :
  transformUsersToHashByKeys h users keys = Ok userHash →
  buckets_inhabited userHash.
Proof.
  apply transformUsersToHashByKeys_invariant.
  - intros key hashByKey name b Hinit%elem_of_initUserHash Hb.
    simpl in Hinit. subst. by apply elem_of_nil in Hb.
  - intros uh activeKey v user uh' Huh
      (hashByKey & name & Hkey%lookup_prop_Some_elem & ->)%push_to_bucket_Ok.
    intros key' hashByKey' name' b' [[= -> ->]|Hold]%elem_of_set_prop;
      [|by apply (Huh key' hashByKey')].
    intros [[= -> ->]|Hold]%elem_of_set_prop.
    + by destruct (default [] _).
    + by apply (Huh activeKey hashByKey name').
Qed.

(** On such a hash [getConsolidatedUserList] returns, when the records are
    flat and no key names a member of [Object.prototype]. *)
Lemma consolidate_bucket_flat key acc (b : list nat) :
  b ≠ [] → flat_heap (st_heap acc.2) → inherited key = false →
  ∃ acc', consolidate_bucket key acc b = Ok acc' ∧
          flat_heap (st_heap acc'.2).
Proof.
  destruct acc as [users st], b as [|u b]; [done|]. intros _ Hflat Hkey.
  unfold consolidate_bucket. destruct (1 <? _)%nat.
  - destruct (consolidateDuplicates_flat u b key st Hflat Hkey)
      as (st' & -> & Hflat').
    rewrite Ok_bind. eauto.
  - eauto.
Qed.

Lemma getConsolidatedUserList_total userHash keys st :
  buckets_inhabited userHash →
  flat_heap (st_heap st) →
  Forall (λ k, inherited k = false) keys →
  ∃ acc, getConsolidatedUserList userHash keys st = Ok acc.
Proof.
  intros Huh Hflat Hkeys. unfold getConsolidatedUserList.
  set (P := λ acc : list nat * state, flat_heap (st_heap acc.2)).
  destruct (foldlM_total_inv P
              (λ acc (_ : string), foldlM (consolidate_key userHash) acc keys)
              (Object_keys userHash)) with (a := (@nil nat, st))
    as (acc & Hrun & _); [|done|by exists acc].
  intros acc _ _. apply foldlM_total_inv. clear acc.
  intros acc key Hkey Hacc. unfold consolidate_key.
  apply (foldlM_total_inv P); [|done]. clear acc Hacc.
  intros acc b Hb Hacc.
  apply consolidate_bucket_flat;
    [|done|by apply (proj1 (Forall_forall _ _) Hkeys)].
  apply list_elem_of_fmap in Hb as ([name b'] & -> & Hin).
  apply (proj1 (elem_of_for_in _ _)) in Hin.
  destruct (lookup_prop userHash key) as [hashByKey|] eqn:Hk; simpl in Hin.
  - apply lookup_prop_Some_elem in Hk. by apply (Huh key hashByKey name).
  - by apply elem_of_nil in Hin.
Qed.




(** ** Runs on sample data *)

(** C8.  Scenario A: with the default keys [resolve] returns one record,
    [{_id: 1, email: "a@x.com", entryDate: "2021-01-01", name: "Alice"}]. *)
Theorem scenarioA_resolved fuel :
  fst <$> resolve (S fuel) scenarioA KEYS_WITH_DUPES
  = Ok [user (VNum 1) (VStr "a@x.com") (VStr "2021-01-01") (VStr "Alice")].
Proof. vm_compute. reflexivity. Qed.

(** C2 fails on the code.  No two records of [id_like_email] share a value
    under [_id] or under [email], yet the scan reports "a@x.com": the [_id]
    of the first record is found in the one list of seen values when the
    [email] of the second is looked up. *)
Theorem getListOfDuplicateValues_mixes_keys :
  NoDup (values_of id_like_email [0; 1] "_id") ∧
  NoDup (values_of id_like_email [0; 1] "email") ∧
  getListOfDuplicateValues id_like_email [0; 1] KEYS_WITH_DUPES
  = [VStr "a@x.com"].
Proof.
  split; [|split]; [| |reflexivity];
    apply (bool_decide_unpack _); vm_compute; exact I.
Qed.

(** C5 fails on the code.  The two records of [mixed_id] are indexed by
    [_id] into a partition of three entries: the list of seen values holds
    both "7" and 7, the second record is loosely equal to either and is
    pushed once for each. *)
Theorem transformUsersToHashByKeys_pushes_twice :
  ∃ userHash hashByKey,
    transformUsersToHashByKeys mixed_id [0; 1] KEYS_WITH_DUPES = Ok userHash ∧
    lookup_prop userHash "_id" = Some hashByKey ∧
    hashByKey = [("7", [0; 1; 1])] ∧
    partition_size hashByKey = 3 ∧
    length mixed_id = 2.
Proof.
  do 2 eexists. split; [vm_compute; reflexivity|].
  split; [reflexivity|]. split; [reflexivity|]. split; reflexivity.
Qed.

(** C6 fails on the code.  The index keeps input order and nothing sorts a
    bucket: for [newest_first] the bucket of [_id] starts with the newer
    entry, and the record returned carries the older name and date. *)
Theorem bucket_in_input_order :
  transformUsersToHashByKeys newest_first [0; 1] KEYS_WITH_DUPES
    = Ok [("_id", [("1", [0; 1])]); ("email", [("a@x.com", [0; 1])])] ∧
  entryDate newest_first 0 = VStr "2021-01-01" ∧
  entryDate newest_first 1 = VStr "2020-01-01" ∧
  ¬ oldest_first date_str_le newest_first [0; 1] ∧
  fst <$> resolve 1 newest_first KEYS_WITH_DUPES
    = Ok [user (VNum 1) (VStr "a@x.com") (VStr "2020-01-01") (VStr "Al")].
Proof.
  split; [vm_compute; reflexivity|].
  split; [reflexivity|]. split; [reflexivity|].
  split; [|vm_compute; reflexivity].
  intros Hsorted. specialize (Hsorted 0 1 0 1). vm_compute in Hsorted.
  discriminate Hsorted; [lia|done..].
Qed.


(** C7 fails on the code.  [three_entries] is resolved in one pass into two
    records with the [_id]s 7 and "7", which the scan tells apart.  Run on
    that result, the index puts both into the bucket named "7": the pass
    merges them, duplicates are reported, a second pass takes place and one
    record is left. *)
Theorem resolve_not_idempotent :
  ∃ st,
    getResolveDuplicates 1 [0; 1; 2] KEYS_WITH_DUPES (load three_entries).2
      = Ok ([0; 1], st) ∧
    values_of (st_heap st) [0; 1] "_id" = [VNum 7; VStr "7"] ∧
    values_of (st_heap st) [0; 1] "email" = [VStr "a@x.com"; VStr "b@x.com"] ∧
    getResolveDuplicates 1 [0; 1] KEYS_WITH_DUPES st = Fail OutOfFuel ∧
    fst <$> getResolveDuplicates 2 [0; 1] KEYS_WITH_DUPES st = Ok [0].
Proof.
  eexists. split; [vm_compute; reflexivity|].
  split; [vm_compute; reflexivity|].
  split; [vm_compute; reflexivity|].
  split; vm_compute; reflexivity.
Qed.

(** One pass over [id_is_email] merges nothing and returns the list as it
    was. *)
Lemma id_is_email_pass log :
  let st := {| st_heap := id_is_email; st_log := log |} in
  ∃ userHash,
    transformUsersToHashByKeys id_is_email [0; 1] KEYS_WITH_DUPES
      = Ok userHash ∧
    getConsolidatedUserList userHash KEYS_WITH_DUPES st = Ok ([0; 1], st) ∧
    getListOfDuplicateValues id_is_email [0; 1] KEYS_WITH_DUPES
      = [VStr "al@x.com"; VStr "bo@x.com"].
Proof.
  eexists. split; [vm_compute; reflexivity|].
  split; vm_compute; reflexivity.
Qed.

(** C9 fails on the code.  The two records of [id_is_email] share no value,
    but [resolve] does not return them: each pass leaves the list as it is
    and reports both addresses as still duplicate, because the [email] of a
    record is found in the list of seen values where its [_id] was put; the
    recursion never ends, whatever the number of passes allowed. *)
Theorem resolve_without_duplicates_diverges :
  NoDup (values_of id_is_email [0; 1] "_id") ∧
  NoDup (values_of id_is_email [0; 1] "email") ∧
  ∀ fuel, resolve fuel id_is_email KEYS_WITH_DUPES = Fail OutOfFuel.
Proof.
  split; [|split]; [apply (bool_decide_unpack _); vm_compute; exact I..|].
  intros fuel. unfold resolve.
  enough (∀ log, getResolveDuplicates fuel [0; 1] KEYS_WITH_DUPES
                   {| st_heap := id_is_email; st_log := log |}
                 = Fail OutOfFuel) as Hloop.
  { change (load id_is_email).2
      with {| st_heap := id_is_email; st_log := [] |}.
    change (load id_is_email).1 with [0; 1]. by rewrite Hloop. }
  induction fuel as [|fuel IH]; intros log; [done|].
  destruct (id_is_email_pass log) as (userHash & Hindex & Hpass & Hscan).
  cbn [getResolveDuplicates st_heap]. rewrite Hindex.
  unfold mbind, result_bind. rewrite Hpass.
  cbn [st_heap]. rewrite Hscan. apply IH.
Qed.

(** * Further properties of the code *)

Local Open Scope nat_scope.

(** ** The scan for duplicate values *)

Lemma not_indexOf_true l v : not_indexOf l v = true ↔ v ∉ l.
Proof.
  unfold not_indexOf, strict_eq. rewrite negb_true_iff.
  induction l as [|x l IH]; simpl.
  - split; [intros _ []%elem_of_nil|done].
  - rewrite not_elem_of_cons. case_bool_decide; simpl.
    + split; [done|]. intros [? _]. congruence.
    + rewrite IH. split; [intros; split; congruence|by intros [_ ?]].
Qed.

Lemma scan_as_fold h keys users : ∀ acc,
  foldl (λ acc user, foldl (check_value h user) acc keys) acc users
  = foldl see acc (scan_values h users keys).
Proof.
  assert (∀ user acc, foldl (check_value h user) acc keys
            = foldl see acc ((λ key, get (h !!! user) key) <$> keys)) as Hin.
  { intros user. induction keys as [|key keys IH]; intros [seen dupes];
      [done|]. simpl. rewrite <-IH. f_equal. }
  unfold scan_values.
  induction users as [|u users IH]; intros acc; simpl; [done|].
  by rewrite foldl_app, IH, Hin.
Qed.

(** What the two lists of the scan hold after the values [vals]. *)
Lemma see_spec vals :
  let acc := foldl see ([], []) vals in
  (∀ x, x ∈ acc.1 ↔ x ∈ vals) ∧
  (∀ x, x ∈ acc.2 ↔ (2 ≤ count_occ value_eq_dec vals x)%nat).
Proof.
  induction vals as [|v vals [IH1 IH2]] using rev_ind; simpl.
  - split; intros x; rewrite elem_of_nil; [done|lia].
  - rewrite foldl_snoc. set (acc := foldl see ([], []) vals) in *.
    assert (∀ x, count_occ value_eq_dec (vals ++ [v]) x
                 = count_occ value_eq_dec vals x + (if decide (v = x) then 1 else 0))
      as Hcount.
    { intros x. rewrite count_occ_app. simpl.
      destruct (value_eq_dec v x), (decide (v = x)); congruence. }
    assert (∀ x, x ∈ vals ↔ (1 ≤ count_occ value_eq_dec vals x)%nat) as Hin.
    { intros x. rewrite list_elem_of_In, (count_occ_In value_eq_dec). lia. }
    unfold see. destruct (not_indexOf acc.1 v) eqn:Hseen; simpl.
    + apply not_indexOf_true in Hseen. rewrite IH1, Hin in Hseen.
      split; intros x.
      * rewrite !elem_of_app, IH1, list_elem_of_singleton. tauto.
      * rewrite IH2, Hcount. destruct (decide (v = x)) as [->|]; lia.
    + apply not_true_iff_false in Hseen. rewrite not_indexOf_true in Hseen.
      apply dec_stable in Hseen. rewrite IH1 in Hseen.
      split; intros x.
      * rewrite elem_of_app, IH1, list_elem_of_singleton.
        split; [by left|]. intros [?| ->]; done.
      * rewrite elem_of_app, IH2, Hcount, list_elem_of_singleton.
        apply Hin in Hseen.
        destruct (decide (v = x)) as [->|]; [|split; [intros [?|?]|]; try lia;
          congruence].
        split; [lia|]. intros _. by right.
Qed.

Lemma getListOfDuplicateValues_count h users keys v :
  v ∈ getListOfDuplicateValues h users keys ↔
  (2 ≤ count_occ value_eq_dec (scan_values h users keys) v)%nat.
Proof.
  unfold getListOfDuplicateValues. rewrite scan_as_fold.
  apply see_spec.
Qed.

Lemma getListOfDuplicateValues_nil h users keys :
  getListOfDuplicateValues h users keys = [] ↔
  NoDup (scan_values h users keys).
Proof.
  rewrite NoDup_ListNoDup, (NoDup_count_occ value_eq_dec). split.
  - intros Hnil x.
    destruct (decide (2 ≤ count_occ value_eq_dec (scan_values h users keys) x)%nat)
      as [Hx|]; [|lia].
    apply getListOfDuplicateValues_count in Hx. rewrite Hnil in Hx.
    by apply elem_of_nil in Hx.
  - intros Hle.
    destruct (getListOfDuplicateValues h users keys) as [|x l] eqn:Hl; [done|].
    assert (x ∈ getListOfDuplicateValues h users keys) as Hx
      by (rewrite Hl; left).
    apply getListOfDuplicateValues_count in Hx. specialize (Hle x). lia.
Qed.

(** X1.  [getListOfDuplicateValues] reports a value exactly when it occurs
    at least twice among the values the scan looks at, the values of all the
    keys of all the records taken together; it returns the empty list exactly
    when those values are pairwise distinct. *)
Theorem getListOfDuplicateValues_reports h users keys :
  (∀ v, v ∈ getListOfDuplicateValues h users keys ↔
        (2 ≤ count_occ value_eq_dec (scan_values h users keys) v)%nat) ∧
  (getListOfDuplicateValues h users keys = [] ↔
   NoDup (scan_values h users keys)).
Proof.
  split.
  - intros v. apply getListOfDuplicateValues_count.
  - apply getListOfDuplicateValues_nil.
Qed.

(** ** What [getResolveDuplicates] returns *)

Lemma getResolveDuplicates_scan fuel : ∀ users keys st consolidatedUsers st',
  getResolveDuplicates fuel users keys st = Ok (consolidatedUsers, st') →
  getListOfDuplicateValues (st_heap st') consolidatedUsers keys = [].
Proof.
  induction fuel as [|fuel IH]; intros users keys st L st'; [done|].
  cbn [getResolveDuplicates].
  intros (userHash & _ & ([L1 st1] & _ & Hrest)%bind_Ok)%bind_Ok.
  destruct (0 <? length _) eqn:Hlen in Hrest.
  - by apply IH in Hrest.
  - injection Hrest as <- <-. apply Nat.ltb_ge in Hlen.
    destruct (getListOfDuplicateValues _ _ _); [done|simpl in Hlen; lia].
Qed.

(** X2.  A list that [getResolveDuplicates] returns holds pairwise distinct
    values under the configured keys: no value of a key of a returned record
    is the value of a key of another returned record, nor of another key of
    the same record. *)
Theorem getResolveDuplicates_distinct_values
  fuel users keys st consolidatedUsers st' :
  getResolveDuplicates fuel users keys st = Ok (consolidatedUsers, st') →
  NoDup (scan_values (st_heap st') consolidatedUsers keys).
Proof.
  intros Hrun. apply getListOfDuplicateValues_nil.
  by eapply getResolveDuplicates_scan.
Qed.

Lemma getResolveDuplicates_distinct_values_witness :
  ∃ consolidatedUsers st',
    getResolveDuplicates 2 [0; 1] KEYS_WITH_DUPES (load changed_email).2
      = Ok (consolidatedUsers, st') ∧
    NoDup (scan_values (st_heap st') consolidatedUsers KEYS_WITH_DUPES).
Proof.
  eexists _, _. split; [vm_compute; reflexivity|].
  apply (getResolveDuplicates_distinct_values
           2 [0; 1] KEYS_WITH_DUPES (load changed_email).2).
  vm_compute. reflexivity.
Defined.

(** ** Runs without keys or without records *)

Lemma transformUsersToHashByKeys_no_keys h users :
  transformUsersToHashByKeys h users [] = Ok [].
Proof.
  unfold transformUsersToHashByKeys.
  assert (foldlM (index_user h) (generateKeyList [], initUserHash []) users
          = Ok ([], [])) as ->; [|done].
  induction users as [|u users IH]; [done|]. simpl. apply IH.
Qed.

(** X3.  Without configured keys [getResolveDuplicates] returns the empty
    list after one pass, whatever the records: nothing is indexed, so nothing
    is put back into the list; no record is changed and nothing is logged. *)
Theorem getResolveDuplicates_no_keys fuel users st :
  getResolveDuplicates (S fuel) users [] st = Ok ([], st).
Proof.
  cbn [getResolveDuplicates]. by rewrite transformUsersToHashByKeys_no_keys.
Qed.

Lemma lookup_initUserHash_Some keys k (hashByKey : obj bucket) :
  lookup_prop (initUserHash keys) k = Some hashByKey → hashByKey = [].
Proof.
  intros Hk%lookup_prop_Some_elem.
  by apply elem_of_initUserHash in Hk.
Qed.

Lemma consolidate_key_empty keys k acc :
  consolidate_key (initUserHash keys) acc k = Ok ([], acc.2).
Proof.
  unfold consolidate_key.
  destruct (lookup_prop (initUserHash keys) k) as [hashByKey|] eqn:Hk; [|done].
  by rewrite (lookup_initUserHash_Some _ _ _ Hk).
Qed.

Lemma getConsolidatedUserList_empty keys ks st :
  getConsolidatedUserList (initUserHash keys) ks st = Ok ([], st).
Proof.
  unfold getConsolidatedUserList.
  assert (∀ l, foldlM (consolidate_key (initUserHash keys)) ([], st) l
               = Ok ([], st)) as Hinner.
  { induction l as [|k l IH]; [done|]. simpl.
    rewrite consolidate_key_empty. apply IH. }
  induction (Object_keys (initUserHash keys)) as [|i l IH]; [done|].
  simpl. rewrite Hinner. apply IH.
Qed.

(** X4.  On an empty array of records [getResolveDuplicates] returns the
    empty list after one pass, for every list of keys, with no log entry. *)
Theorem getResolveDuplicates_no_users fuel keys st :
  getResolveDuplicates (S fuel) [] keys st = Ok ([], st).
Proof.
  cbn [getResolveDuplicates]. unfold transformUsersToHashByKeys. simpl.
  by rewrite getConsolidatedUserList_empty.
Qed.

(** ** More on [consolidateDuplicates] *)

Section AccumulateMore.
Variables (h : heap) (d : loc).

Lemma lookup_accumulate_from l : ∀ acc f v,
  lookup_prop (accumulate h d acc l) f = Some v →
  lookup_prop acc f = Some v ∨
  ∃ m, m ∈ l ∧ m ≠ d ∧ lookup_prop (h !!! m) f = Some v.
Proof.
  induction l as [|m l IH] using rev_ind; intros acc f v; [by left|].
  rewrite accumulate_snoc. destruct (decide (m = d)) as [->|Hm].
  - intros [?| (m & ? & ? & ?)]%IH; [by left|].
    right. exists m. rewrite elem_of_app. eauto.
  - rewrite lookup_absorb.
    destruct (lookup_prop (h !!! m) f) as [w|] eqn:Hw.
    + intros [= ->]. right. exists m. rewrite elem_of_app.
      split; [right; left|done].
    + intros [?| (m' & ? & ? & ?)]%IH; [by left|].
      right. exists m'. rewrite elem_of_app. eauto.
Qed.

(** For a field, the members either fix the value whatever the record they
    are merged into, or leave the value of that record. *)
Lemma lookup_accumulate_cases l f :
  (∃ v, ∀ acc, lookup_prop (accumulate h d acc l) f = Some v) ∨
  (∀ acc, lookup_prop (accumulate h d acc l) f = lookup_prop acc f).
Proof.
  induction l as [|m l IH] using rev_ind; [by right|].
  destruct (decide (m = d)) as [->|Hm].
  - destruct IH as [[v Hv]|Hid]; [left; exists v|right]; intros acc;
      rewrite accumulate_snoc, decide_True by done; auto.
  - destruct (lookup_prop (h !!! m) f) as [w|] eqn:Hw.
    + left. exists w. intros acc.
      by rewrite accumulate_snoc, decide_False, lookup_absorb, Hw.
    + destruct IH as [[v Hv]|Hid]; [left; exists v|right]; intros acc;
        rewrite accumulate_snoc, decide_False, lookup_absorb, Hw by done; auto.
Qed.

End AccumulateMore.

Lemma consolidateDuplicates_det d ds key st r :
  d < length (st_heap st) → flat_heap (st_heap st) →
  consolidateDuplicates (d :: ds) key st = Ok r →
  r.1 = d ∧ flat_heap (st_heap r.2) ∧
  st_heap r.2 =
  <[d := accumulate (st_heap st) d (st_heap st !!! d) ds]> (st_heap st).
Proof.
  intros Hd Hflat Hrun. destruct r as [r st'].
  apply consolidateDuplicates_Ok in Hrun as [[= <-] (v & e & Hrun)].
  simpl. split; [done|]. split.
  - match type of Hrun with
    | foldlM _ ?s _ = _ =>
        destruct (merge_records_flat d (d :: ds) s Hflat) as (st'' & Hrun' & ?)
    end.
    rewrite Hrun in Hrun'. by injection Hrun' as <-.
  - apply merge_records_heap in Hrun; [|done|].
    + simpl in Hrun. rewrite Hrun. unfold accumulate. simpl.
      by rewrite ?decide_True.
    + intros m _ _. simpl. apply flat_record_not_own; [|by right].
      by apply flat_heap_lookup.
Qed.

(** *** Where the fields of the merged record come from *)

Section Provenance.
Variables (h0 : heap) (d : loc) (members : list loc).
Hypothesis Hd : d < length h0.

(** The heap has the size of [h0], the records other than [d] are those of
    [h0], and what [d] holds is held by a member in [h0]. *)
Local Abbreviation from_members st :=
  (length (st_heap st) = length h0 ∧
   (∀ m, m ≠ d → st_heap st !!! m = h0 !!! m) ∧
   ∀ f v, lookup_prop (st_heap st !!! d) f = Some v →
          ∃ m, m ∈ members ∧ lookup_prop (h0 !!! m) f = Some v).

Lemma merge_field_from_members m st k st' :
  m ∈ members → from_members st →
  hasOwnProperty (st_heap st !!! m) k = true →
  merge_field d m st k = Ok st' →
  from_members st' ∧
  ∀ f, hasOwnProperty (st_heap st !!! m) f = true →
       hasOwnProperty (st_heap st' !!! m) f = true.
Proof.
  intros Hm (Hlen & Hother & Hprov) [v Hv]%hasOwnProperty_true
    (_ & _ & [Hh|Hh])%merge_field_Ok; rewrite Hh; [done|].
  rewrite (get_lookup_prop _ _ _ Hv). split; [split; [|split]|].
  - by rewrite length_insert.
  - intros p Hp. rewrite list_lookup_total_insert_ne by done.
    by apply Hother.
  - intros f w. rewrite list_lookup_total_insert_eq by lia.
    rewrite lookup_set_prop. case_bool_decide; [|by apply Hprov].
    intros [= <-]. subst.
    destruct (decide (m = d)) as [->|Hne]; [by apply (Hprov f)|].
    exists m. split; [done|]. by rewrite <-Hother.
  - intros f. apply store_keeps_own.
Qed.

Lemma merge_record_from_members m st st' :
  m ∈ members → from_members st →
  merge_record d st m = Ok st' → from_members st'.
Proof.
  intros Hm Hst. unfold merge_record.
  set (ks := Object_keys (st_heap st !!! m)). intros Hrun.
  apply (foldlM_invariant_in
           (λ s, from_members s ∧
                 ∀ k, k ∈ ks → hasOwnProperty (st_heap s !!! m) k = true)
           _ _) with (a' := st') in Hrun as [? _]; [done| |].
  - intros s k s' Hk [Hs Hown] Hstep.
    destruct (merge_field_from_members m s k s' Hm Hs (Hown k Hk) Hstep)
      as [Hs' Hkeep].
    split; [done|]. intros. by apply Hkeep, Hown.
  - split; [done|]. intros k Hk. apply hasOwnProperty_true.
    by apply elem_of_Object_keys.
Qed.

Lemma merge_records_from_members l st st' :
  (∀ m, m ∈ l → m ∈ members) → from_members st →
  foldlM (merge_record d) st l = Ok st' → from_members st'.
Proof.
  intros Hl. apply (foldlM_invariant_in (λ s, from_members s)).
  intros s m s' Hm Hs. apply merge_record_from_members; [by apply Hl|done].
Qed.

End Provenance.

(** X5.  The merge invents no data: a value that the merged record holds
    for a field is the value that some member of the bucket held for that
    field before the merge. *)
Theorem consolidateDuplicates_values_from_members
  d ds key st oldestRecord st' f v :
  d < length (st_heap st) →
  consolidateDuplicates (d :: ds) key st = Ok (oldestRecord, st') →
  lookup_prop (st_heap st' !!! oldestRecord) f = Some v →
  ∃ m, m ∈ d :: ds ∧ lookup_prop (st_heap st !!! m) f = Some v.
Proof.
  intros Hd [[= <-] (w & e & Hrun)]%consolidateDuplicates_Ok.
  apply (merge_records_from_members (st_heap st) d (d :: ds) Hd) in Hrun
    as (_ & _ & Hprov); [by apply Hprov|done|].
  split; [done|]. split; [done|]. intros f' v' Hf'. exists d.
  split; [left|done].
Qed.

Lemma consolidateDuplicates_values_from_members_witness :
  ∃ st',
    consolidateDuplicates [0; 1] "_id" (load scenarioA).2 = Ok (0, st') ∧
    lookup_prop (st_heap st' !!! 0) "name" = Some (VStr "Alice") ∧
    ∃ m, m ∈ [0; 1] ∧ lookup_prop (scenarioA !!! m) "name" = Some (VStr "Alice").
Proof.
  eexists. split; [vm_compute; reflexivity|]. split; [reflexivity|].
  eapply (consolidateDuplicates_values_from_members
            0 [1] "_id" (load scenarioA).2 0);
    [simpl; lia|vm_compute; reflexivity|reflexivity].
Defined.

(** X6.  Merging a bucket a second time changes no field: after
    [consolidateDuplicates] has merged a bucket of a heap of flat records, a
    further call on the same bucket (as the loop over [userHash] makes),
    under a key that does not name a member of [Object.prototype], returns
    the same record with the same value for every field, and leaves the
    other records alone. *)
Theorem consolidateDuplicates_again d ds key key' st st1 :
  d < length (st_heap st) →
  flat_heap (st_heap st) →
  inherited key' = false →
  consolidateDuplicates (d :: ds) key st = Ok (d, st1) →
  ∃ st2,
    consolidateDuplicates (d :: ds) key' st1 = Ok (d, st2) ∧
    (∀ f, lookup_prop (st_heap st2 !!! d) f
          = lookup_prop (st_heap st1 !!! d) f) ∧
    (∀ m, m ≠ d → st_heap st2 !! m = st_heap st1 !! m).
Proof.
  intros Hd Hflat Hkey' (_ & Hflat1 & Hh1)%consolidateDuplicates_det;
    [|done..]. simpl in Hflat1, Hh1.
  assert (d < length (st_heap st1)) as Hd1 by by rewrite Hh1, length_insert.
  destruct (consolidateDuplicates_heap d ds key' st1 Hd1 Hflat1 Hkey')
    as (st2 & Hrun2 & _ & Hh2).
  exists st2. split; [done|]. rewrite Hh2. split.
  - intros f. rewrite list_lookup_total_insert_eq by done.
    rewrite (accumulate_ext (st_heap st) (st_heap st1))
      by (intros; rewrite Hh1; by apply list_lookup_total_insert_ne).
    rewrite Hh1, list_lookup_total_insert_eq by done.
    destruct (lookup_accumulate_cases (st_heap st) d ds f) as [[v Hv]|Hid].
    + by rewrite !Hv.
    + by rewrite Hid.
  - intros m Hm. by apply list_lookup_insert_ne.
Qed.

Lemma consolidateDuplicates_again_witness :
  ∃ st1 st2,
    consolidateDuplicates [0; 1] "_id" (load scenarioA).2 = Ok (0, st1) ∧
    consolidateDuplicates [0; 1] "email" st1 = Ok (0, st2) ∧
    (∀ f, lookup_prop (st_heap st2 !!! 0) f
          = lookup_prop (st_heap st1 !!! 0) f) ∧
    (∀ m, m ≠ 0 → st_heap st2 !! m = st_heap st1 !! m).
Proof.
  eexists.
  edestruct (consolidateDuplicates_again
               0 [1] "_id" "email" (load scenarioA).2)
    as (st2 & Hrun & Hsame);
    [simpl; lia
    |apply (bool_decide_unpack _); vm_compute; exact I
    |reflexivity
    |vm_compute; reflexivity|].
  exists st2. split; [vm_compute; reflexivity|]. split; [exact Hrun|exact Hsame].
Defined.

Lemma merge_fields_self_Ok d ks : ∀ st,
  hasOwnProperty (st_heap st !!! d) "hasOwnProperty" = false →
  (∀ k, k ∈ ks → hasOwnProperty (st_heap st !!! d) k = true) →
  foldlM (merge_field d d) st ks = Ok st.
Proof.
  induction ks as [|k ks IH]; intros st Hcall Hown; [done|]. cbn [foldlM].
  assert (merge_field d d st k = Ok st) as ->.
  { unfold merge_field, strict_eq. cbv zeta. rewrite Hcall, Hown by left.
    simpl. by rewrite bool_decide_eq_true_2. }
  rewrite Ok_bind. apply IH; [done|]. intros. apply Hown. by right.
Qed.

Lemma merge_record_self_Ok d st :
  hasOwnProperty (st_heap st !!! d) "hasOwnProperty" = false →
  merge_record d st d = Ok st.
Proof.
  intros Hcall. unfold merge_record. apply merge_fields_self_Ok; [done|].
  intros k Hk. apply hasOwnProperty_true. by apply elem_of_Object_keys.
Qed.

Lemma merge_records_self_Ok d ds st :
  Forall (λ m, m = d) ds →
  hasOwnProperty (st_heap st !!! d) "hasOwnProperty" = false →
  foldlM (merge_record d) st ds = Ok st.
Proof.
  intros Hds Hcall. induction Hds as [|m ds -> _ IH]; [done|].
  cbn [foldlM]. by rewrite merge_record_self_Ok, Ok_bind.
Qed.

(** X7.  A bucket in which the oldest record occurs alone, once or several
    times, is merged into itself: when that record is flat and the key does
    not name a member of [Object.prototype], [consolidateDuplicates] changes
    no record and writes its two announcing log entries only. *)
Theorem consolidateDuplicates_self_only d ds key st :
  Forall (λ m, m = d) ds →
  flat_record (st_heap st !!! d) →
  inherited key = false →
  consolidateDuplicates (d :: ds) key st
  = Ok (d, writelog
             (LogUpdatingRecord key (get (st_heap st !!! d) key)
                (get (st_heap st !!! d) "entryDate"))
             (writelog (LogConsolidating (S (length ds)) key) st)).
Proof.
  intros Hds Hflat Hkey. rewrite consolidateDuplicates_cons.
  rewrite read_prop_get, Ok_bind by auto.
  rewrite !concat_value_scalar, !Ok_bind by by apply flat_record_get.
  rewrite (merge_records_self_Ok d (d :: ds)); [done|by constructor|].
  simpl. apply flat_record_not_own; auto.
Qed.

Lemma consolidateDuplicates_self_only_witness :
  consolidateDuplicates [1; 1] "_id" (load scenarioA).2
  = Ok (1, writelog
             (LogUpdatingRecord "_id" (get (scenarioA !!! 1) "_id")
                (get (scenarioA !!! 1) "entryDate"))
             (writelog (LogConsolidating 2 "_id") (load scenarioA).2)).
Proof.
  apply (consolidateDuplicates_self_only 1 [1] "_id" (load scenarioA).2).
  - by repeat constructor.
  - apply (bool_decide_unpack _). vm_compute. exact I.
  - reflexivity.
Defined.

(** ** What a pass writes *)

Lemma consolidate_bucket_only_writes key acc b acc' :
  consolidate_bucket key acc b = Ok acc' →
  only_writes (λ m, head b = Some m) acc.2 acc'.2.
Proof.
  destruct acc as [users st]. unfold consolidate_bucket.
  destruct (1 <? length b).
  - intros ([merged st'] & [Hhead Hw]%consolidateDuplicates_only_writes
            & [= <-])%bind_Ok. simpl.
    eapply only_writes_weaken; [|done]. by intros m ->.
  - destruct b; [done|]. intros [= <-]. apply only_writes_refl.
Qed.

Lemma consolidate_key_only_writes userHash acc key acc' :
  consolidate_key userHash acc key = Ok acc' →
  only_writes (bucket_head userHash) acc.2 acc'.2.
Proof.
  unfold consolidate_key.
  destruct (lookup_prop userHash key) as [hashByKey|] eqn:Hkey; simpl;
    [|intros [= <-]; apply only_writes_refl].
  apply lookup_prop_Some_elem in Hkey.
  apply (foldlM_invariant_in
           (λ a, only_writes (bucket_head userHash) acc.2 a.2));
    [|apply only_writes_refl].
  intros a b a' Hb Ha Hstep. eapply only_writes_trans; [done|].
  eapply only_writes_weaken; [|by eapply consolidate_bucket_only_writes].
  intros m Hm. apply list_elem_of_fmap in Hb as ([name b'] & -> & Hin).
  apply (proj1 (elem_of_for_in _ _)) in Hin.
  by exists key, hashByKey, name, b'.
Qed.

Lemma getConsolidatedUserList_only_writes userHash keys st acc :
  getConsolidatedUserList userHash keys st = Ok acc →
  only_writes (bucket_head userHash) st acc.2.
Proof.
  unfold getConsolidatedUserList.
  apply (foldlM_invariant
           (λ a : list nat * state, only_writes (bucket_head userHash) st a.2));
    [|apply only_writes_refl].
  intros a _ a' Ha.
  apply (foldlM_invariant
           (λ a : list nat * state, only_writes (bucket_head userHash) st a.2));
    [|done].
  intros a0 key a1 Ha0 Hstep. eapply only_writes_trans; [done|].
  by eapply consolidate_key_only_writes.
Qed.

(** X8.  A pass of [getConsolidatedUserList] writes to the first records of
    the buckets only: a record that is not the first element of a bucket of
    the hash is left as it was; no record is created or removed; the change
    log keeps its entries and is only appended to. *)
Theorem getConsolidatedUserList_writes_heads
  userHash keys st consolidatedUsers st' :
  getConsolidatedUserList userHash keys st = Ok (consolidatedUsers, st') →
  length (st_heap st') = length (st_heap st) ∧
  st_log st `prefix_of` st_log st' ∧
  ∀ m, (∀ key hashByKey name (b : list nat),
          (key, hashByKey) ∈ userHash → (name, b) ∈ hashByKey →
          head b ≠ Some m) →
       st_heap st' !! m = st_heap st !! m.
Proof.
  intros (Hlen & Hlog & Hframe)%getConsolidatedUserList_only_writes.
  split; [done|]. split; [done|]. intros m Hm. apply Hframe.
  intros (key & hashByKey & name & b & Hkey & Hb & Hhead).
  by apply (Hm key hashByKey name b).
Qed.

Lemma getConsolidatedUserList_writes_heads_witness :
  ∃ consolidatedUsers st',
    getConsolidatedUserList
      [("_id", [("1", [0; 1])]); ("email", [("a@x.com", [0; 1])])]
      KEYS_WITH_DUPES (load scenarioA).2 = Ok (consolidatedUsers, st') ∧
    length (st_heap st') = length scenarioA ∧
    st_log (load scenarioA).2 `prefix_of` st_log st' ∧
    ∀ m, (∀ key hashByKey name (b : list nat),
            (key, hashByKey)
              ∈ [("_id", [("1", [0; 1])]); ("email", [("a@x.com", [0; 1])])] →
            (name, b) ∈ hashByKey → head b ≠ Some m) →
         st_heap st' !! m = scenarioA !! m.
Proof.
  eexists _, _. split; [vm_compute; reflexivity|].
  eapply (getConsolidatedUserList_writes_heads
            [("_id", [("1", [0; 1])]); ("email", [("a@x.com", [0; 1])])]
            KEYS_WITH_DUPES (load scenarioA).2).
  vm_compute. reflexivity.
Defined.

(** ** A pass over a hash without duplicates *)

(** Membership in a list that is written out, case by case. *)
Ltac elem_of_cases H :=
  repeat (apply elem_of_cons in H as [H|H]; [injection H as -> ->|]);
  try (by apply elem_of_nil in H).

Lemma Object_keys_nil {A : Type} (o : obj A) :
  Object_keys o = [] → o = [].
Proof.
  destruct o as [|[k a] o]; [done|]. intros Hnil.
  assert (k ∈ Object_keys ((k, a) :: o)) as Hk.
  { apply elem_of_Object_keys. simpl. rewrite bool_decide_eq_true_2; eauto. }
  rewrite Hnil in Hk. by apply elem_of_nil in Hk.
Qed.

Lemma consolidate_buckets_single key (bs : list (list nat)) :
  (∀ b, b ∈ bs → length b = 1) →
  ∀ consolidatedUsers st,
    foldlM (consolidate_bucket key) (consolidatedUsers, st) bs
    = Ok (consolidatedUsers ++ concat bs, st).
Proof.
  induction bs as [|b bs IH]; intros Hbs users st; simpl.
  - by rewrite app_nil_r.
  - assert (length b = 1) as Hb by (apply Hbs; left).
    destruct b as [|u [|??]]; try done. simpl.
    rewrite IH by (intros; apply Hbs; by right).
    by rewrite <-app_assoc.
Qed.

Lemma consolidate_key_single
  (userHash : userHashT) acc key :
  (∀ k hashByKey name b,
     (k, hashByKey) ∈ userHash → (name, b) ∈ hashByKey → length b = 1) →
  consolidate_key userHash acc key
  = Ok (concat (snd <$> for_in (default [] (lookup_prop userHash key))), acc.2).
Proof.
  intros Hsingle. unfold consolidate_key.
  rewrite consolidate_buckets_single; [done|].
  intros b ([name b'] & -> & Hin)%list_elem_of_fmap.
  apply (proj1 (elem_of_for_in _ _)) in Hin.
  destruct (lookup_prop userHash key) as [hashByKey|] eqn:Hkey; simpl in Hin.
  - apply lookup_prop_Some_elem in Hkey. by apply (Hsingle key hashByKey name).
  - by apply elem_of_nil in Hin.
Qed.

Lemma getConsolidatedUserList_single
  (userHash : userHashT) keys key st :
  (∀ k hashByKey name b,
     (k, hashByKey) ∈ userHash → (name, b) ∈ hashByKey → length b = 1) →
  userHash ≠ [] →
  getConsolidatedUserList userHash (keys ++ [key]) st
  = Ok (concat (snd <$> for_in (default [] (lookup_prop userHash key))), st).
Proof.
  intros Hsingle Hne. unfold getConsolidatedUserList.
  set (last := concat (snd <$> for_in (default [] (lookup_prop userHash key)))).
  assert (∀ acc, foldlM (consolidate_key userHash) acc (keys ++ [key])
                 = Ok (last, acc.2)) as Hbody.
  { intros acc. rewrite foldlM_snoc.
    assert (∃ l, foldlM (consolidate_key userHash) acc keys = Ok (l, acc.2))
      as [l ->].
    { clear last. revert acc.
      induction keys as [|k keys IH]; intros [l st0]; simpl; [eauto|].
      rewrite consolidate_key_single by done. simpl. apply (IH (_, st0)). }
    simpl. by rewrite consolidate_key_single. }
  destruct (Object_keys userHash) as [|i l] eqn:Hkeys.
  { by apply Object_keys_nil in Hkeys. }
  simpl. rewrite Hbody. simpl. clear Hkeys.
  induction l as [|j l IH]; [done|]. simpl. by rewrite Hbody.
Qed.

(** X9.  When no bucket of the hash holds more than one record, a pass of
    [getConsolidatedUserList] merges nothing: no record is changed, nothing
    is logged, and the list returned is made of the records of the buckets
    of the last key, in the order of the buckets. *)
Theorem getConsolidatedUserList_without_duplicates
  (userHash : userHashT) keys key st :
  (∀ k hashByKey name b,
     (k, hashByKey) ∈ userHash → (name, b) ∈ hashByKey → length b = 1) →
  userHash ≠ [] →
  getConsolidatedUserList userHash (keys ++ [key]) st
  = Ok (concat (snd <$> for_in (default [] (lookup_prop userHash key))), st).
Proof. apply getConsolidatedUserList_single. Qed.

Lemma getConsolidatedUserList_without_duplicates_witness :
  getConsolidatedUserList
    [("_id", [("u1", [0]); ("u2", [1])]);
     ("email", [("a@x.com", [0]); ("b@x.com", [1])])]
    (["_id"] ++ ["email"]) (load two_persons).2
  = Ok (concat (snd <$> for_in (default []
          (lookup_prop [("_id", [("u1", [0]); ("u2", [1])]);
                        ("email", [("a@x.com", [0]); ("b@x.com", [1])])]
             "email"))),
        (load two_persons).2).
Proof.
  apply (getConsolidatedUserList_without_duplicates
           [("_id", [("u1", [0]); ("u2", [1])]);
            ("email", [("a@x.com", [0]); ("b@x.com", [1])])]
           ["_id"] "email" (load two_persons).2); [|done].
  intros k hashByKey name b Hk Hb.
  elem_of_cases Hk; elem_of_cases Hb; done.
Defined.

(** ** The order of enumeration *)

Section Enumeration.
Context {A : Type}.
Implicit Types (o : obj A).

Lemma insert_by_index_perm n (e : string * A) l :
  insert_by_index n e l ≡ₚ (n, e) :: l.
Proof.
  induction l as [|[m e'] l IH]; simpl; [done|].
  destruct (n <? m)%N; [done|]. rewrite IH. apply Permutation_swap.
Qed.

Lemma index_props_perm o :
  snd <$> index_props o ≡ₚ filter (λ e, ¬ array_index e.1 = None) o.
Proof.
  induction o as [|[k a] o IH]; simpl; [done|].
  destruct (array_index k) as [n|] eqn:Hk.
  - rewrite insert_by_index_perm, filter_cons_True
      by (simpl; rewrite Hk; done).
    simpl. by rewrite IH.
  - rewrite filter_cons_False by (simpl; rewrite Hk; tauto). done.
Qed.

(** [for (k in o)] visits every property once. *)
Lemma for_in_perm o : for_in o ≡ₚ o.
Proof.
  unfold for_in, named_props. rewrite index_props_perm.
  rewrite Permutation_app_comm.
  apply (filter_app_complement (λ e : string * A, array_index e.1 = None)).
Qed.

Lemma NoDup_Object_keys o : NoDup (fst <$> o) → NoDup (Object_keys o).
Proof. unfold Object_keys. by rewrite for_in_perm. Qed.

(** Without array indices among the names the order is that of creation. *)
Lemma for_in_named o :
  (∀ e, e ∈ o → array_index e.1 = None) → for_in o = o.
Proof.
  intros Ho. unfold for_in, named_props.
  assert (index_props o = []) as ->.
  { induction o as [|[k a] o IH]; [done|]. simpl.
    assert (array_index k = None) as -> by (apply (Ho (k, a)); left).
    apply IH. intros. apply Ho. by right. }
  simpl. induction o as [|e o IH]; [done|].
  rewrite filter_cons_True by (apply Ho; left).
  f_equal. apply IH. intros. apply Ho. by right.
Qed.

Lemma fst_set_prop_existing o k a :
  is_Some (lookup_prop o k) → fst <$> set_prop o k a = fst <$> o.
Proof.
  induction o as [|[k0 a0] o IH]; simpl; [by intros [? ?]|].
  case_bool_decide; simpl; [done|]. intros. f_equal. auto.
Qed.

Lemma fst_set_prop_new o k a :
  lookup_prop o k = None → set_prop o k a = o ++ [(k, a)].
Proof.
  induction o as [|[k0 a0] o IH]; simpl; [done|].
  case_bool_decide; [done|]. intros. f_equal. auto.
Qed.

Lemma lookup_prop_None o k : lookup_prop o k = None ↔ k ∉ fst <$> o.
Proof.
  induction o as [|[k0 a0] o IH]; simpl.
  - split; [intros _ []%elem_of_nil|done].
  - rewrite not_elem_of_cons. case_bool_decide; subst.
    + split; [done|]. by intros [? _].
    + rewrite IH. split; [by intros; split|by intros [_ ?]].
Qed.

Lemma NoDup_fst_set_prop o k a :
  NoDup (fst <$> o) → NoDup (fst <$> set_prop o k a).
Proof.
  intros Ho. destruct (lookup_prop o k) as [a0|] eqn:Hk.
  - rewrite fst_set_prop_existing by eauto. done.
  - rewrite fst_set_prop_new, fmap_app by done. simpl.
    apply NoDup_app. split; [done|]. split; [|apply NoDup_singleton].
    intros x Hx ->%list_elem_of_singleton. by apply lookup_prop_None in Hk.
Qed.

End Enumeration.

(** ** generateKeyList *)

Lemma lookup_generateKeyList keys k :
  lookup_prop (generateKeyList keys) k =
  if bool_decide (k ∈ keys) then Some {| kl_key := k; kl_list := [] |}
  else None.
Proof.
  unfold generateKeyList. induction keys as [|k' keys IH] using rev_ind.
  - simpl.
    first [done|by rewrite bool_decide_eq_false_2 by apply not_elem_of_nil].
  - rewrite foldl_snoc, lookup_set_prop.
    destruct (bool_decide_reflect (k' = k)) as [->|Hne].
    + by rewrite bool_decide_eq_true_2 by (apply elem_of_app; right; left).
    + rewrite IH. rewrite (bool_decide_ext (k ∈ keys ++ [k']) (k ∈ keys));
        [done|].
      rewrite elem_of_app, list_elem_of_singleton.
      split; [|by left]. intros [?|?]; [done|congruence].
Qed.

Lemma NoDup_generateKeyList keys : NoDup (fst <$> generateKeyList keys).
Proof.
  unfold generateKeyList. induction keys as [|k keys IH] using rev_ind.
  - apply NoDup_nil_2.
  - rewrite foldl_snoc. by apply NoDup_fst_set_prop.
Qed.

Lemma generateKeyList_wf keys : keyList_wf (generateKeyList keys).
Proof.
  split; [apply NoDup_generateKeyList|]. intros j entry.
  rewrite lookup_generateKeyList. case_bool_decide; [|done].
  by intros [= <-].
Qed.

(** ** The index, key by key *)

Lemma push_to_bucket_by
  (userHash : userHashT) k hashByKey v user :
  lookup_prop userHash k = Some hashByKey →
  push_to_bucket userHash k v user =
  hashByKey' ← push_bucket hashByKey v user;
  Ok (set_prop userHash k hashByKey').
Proof.
  intros Hk. unfold push_to_bucket, push_bucket. rewrite Hk.
  destruct (ToString v) as [name|]; simpl; [|done].
  case_bool_decide; [done|]. by destruct (_ || _).
Qed.

Lemma match_list_items_by k v user list :
  ∀ (userHash : userHashT) hashByKey userHash',
  lookup_prop userHash k = Some hashByKey →
  foldlM (match_list_item k v user) userHash list = Ok userHash' →
  ∃ hashByKey',
    foldlM (match_item_by v user) hashByKey list = Ok hashByKey' ∧
    lookup_prop userHash' k = Some hashByKey'.
Proof.
  induction list as [|item list IH]; intros uh hbk uh' Hk.
  - intros [= <-]. exists hbk. done.
  - intros (uh1 & Hitem & Hrest)%bind_Ok.
    unfold match_list_item in Hitem.
    destruct (loose_eq item v) as [[]|] eqn:Heq; simpl in Hitem; [| |done].
    + rewrite (push_to_bucket_by _ _ _ _ _ Hk) in Hitem.
      apply bind_Ok in Hitem as (hbk1 & Hpush & [= <-]).
      destruct (IH (set_prop uh k hbk1) hbk1 uh') as (hbk' & Hfold & Hk');
        [apply lookup_set_prop_eq|done|].
      exists hbk'. split; [|done].
      assert (match_item_by v user hbk item = Ok hbk1) as Hstep
        by (unfold match_item_by; rewrite Heq; done).
      cbn [foldlM]. by rewrite Hstep.
    + injection Hitem as <-.
      destruct (IH uh hbk uh' Hk Hrest) as (hbk' & Hfold & Hk').
      exists hbk'. split; [|done].
      assert (match_item_by v user hbk item = Ok hbk) as Hstep
        by (unfold match_item_by; rewrite Heq; done).
      cbn [foldlM]. by rewrite Hstep.
Qed.

Lemma match_list_items_other j v user list k :
  k ≠ j →
  ∀ (userHash userHash' : userHashT),
  foldlM (match_list_item j v user) userHash list = Ok userHash' →
  lookup_prop userHash' k = lookup_prop userHash k.
Proof.
  intros Hne uh uh'.
  apply (foldlM_invariant (λ u, lookup_prop u k = lookup_prop uh k)); [|done].
  intros uh0 item uh1 Huh0. unfold match_list_item.
  destruct (loose_eq item v) as [[]|]; simpl; [|by intros [= <-]|done].
  intros (hashByKey & name & _ & ->)%push_to_bucket_Ok.
  by rewrite lookup_set_prop_ne.
Qed.

Lemma keyList_wf_set keyList j entry list :
  keyList_wf keyList → lookup_prop keyList j = Some entry →
  keyList_wf (set_prop keyList j {| kl_key := kl_key entry; kl_list := list |}).
Proof.
  intros [Hnd Hkey] Hj. split.
  - by apply NoDup_fst_set_prop.
  - intros j' entry'. rewrite lookup_set_prop. case_bool_decide; subst.
    + intros [= <-]. simpl. by apply Hkey.
    + apply Hkey.
Qed.

Lemma index_user_by_same h user k acc s acc' :
  keyList_wf acc.1 → key_view k acc s →
  index_user_by h user acc k = Ok acc' →
  ∃ s', index_by h k s user = Ok s' ∧ key_view k acc' s' ∧ keyList_wf acc'.1.
Proof.
  destruct acc as [keyList uh], s as [seen hbk].
  intros Hwf [Hkl Huh]. simpl in *. unfold index_user_by. rewrite Hkl.
  simpl kl_key. simpl kl_list.
  intros (uh' & Hitems & [= <-])%bind_Ok.
  apply (match_list_items_by _ _ _ _ _ hbk) in Hitems as (hbk' & Hfold & Hk');
    [|done].
  eexists (_, hbk'). split; [|split].
  - unfold index_by. simpl. rewrite Hfold. done.
  - split; simpl; [|done]. by rewrite lookup_set_prop_eq.
  - simpl. by apply (keyList_wf_set keyList k _ _ Hwf Hkl).
Qed.

Lemma index_user_by_other h user j k acc s acc' :
  j ≠ k → keyList_wf acc.1 → key_view k acc s →
  index_user_by h user acc j = Ok acc' →
  key_view k acc' s ∧ keyList_wf acc'.1.
Proof.
  destruct acc as [keyList uh]. intros Hne Hwf [Hkl Huh]. simpl in *.
  unfold index_user_by.
  destruct (lookup_prop keyList j) as [entry|] eqn:Hj; [|done].
  intros (uh' & Hitems & [= <-])%bind_Ok.
  assert (kl_key entry = j) as Hentry by by apply Hwf.
  rewrite Hentry in Hitems.
  apply (match_list_items_other _ _ _ _ k) in Hitems; [|done].
  split; [split; simpl|].
  - by rewrite lookup_set_prop_ne.
  - congruence.
  - simpl. by apply keyList_wf_set.
Qed.

Lemma index_user_bys_other h user k js : ∀ acc s acc',
  k ∉ js → keyList_wf acc.1 → key_view k acc s →
  foldlM (index_user_by h user) acc js = Ok acc' →
  key_view k acc' s ∧ keyList_wf acc'.1.
Proof.
  induction js as [|j js IH]; intros acc s acc' Hk Hwf Hview; simpl.
  - by intros [= <-].
  - apply not_elem_of_cons in Hk as [Hne Hk].
    intros (acc1 & Hj & Hjs)%bind_Ok.
    apply (index_user_by_other _ _ _ k _ s) in Hj as [Hview1 Hwf1];
      [|done..].
    by apply (IH acc1 s acc').
Qed.

Lemma index_user_bys_same h user k js : ∀ acc s acc',
  NoDup js → k ∈ js → keyList_wf acc.1 → key_view k acc s →
  foldlM (index_user_by h user) acc js = Ok acc' →
  ∃ s', index_by h k s user = Ok s' ∧ key_view k acc' s' ∧ keyList_wf acc'.1.
Proof.
  induction js as [|j js IH]; intros acc s acc' Hnd Hk Hwf Hview; simpl.
  { by apply elem_of_nil in Hk. }
  apply NoDup_cons in Hnd as [Hj Hnd].
  intros (acc1 & Hstep & Hjs)%bind_Ok.
  destruct (decide (j = k)) as [->|Hne].
  - apply (index_user_by_same _ _ _ _ s) in Hstep
      as (s' & Hby & Hview1 & Hwf1); [|done..].
    exists s'. split; [done|].
    by apply (index_user_bys_other h user k js acc1 s' acc').
  - apply (index_user_by_other _ _ _ k _ s) in Hstep as [Hview1 Hwf1];
      [|done..].
    apply elem_of_cons in Hk as [?|Hk]; [congruence|].
    by apply (IH acc1 s acc').
Qed.

Lemma index_users_by h k users : ∀ acc s acc',
  keyList_wf acc.1 → key_view k acc s →
  foldlM (index_user h) acc users = Ok acc' →
  ∃ s', foldlM (index_by h k) s users = Ok s' ∧ key_view k acc' s'.
Proof.
  induction users as [|u users IH]; intros acc s acc' Hwf Hview; simpl.
  - intros [= <-]. eauto.
  - intros (acc1 & Hu & Hrest)%bind_Ok. unfold index_user in Hu.
    apply (index_user_bys_same _ _ k _ _ s) in Hu
      as (s1 & Hby & Hview1 & Hwf1); [|by apply NoDup_Object_keys, Hwf| |done..].
    + rewrite Hby. simpl. by apply (IH acc1 s1 acc').
    + apply elem_of_Object_keys. destruct Hview as [-> _]. eauto.
Qed.

(** The partition of a configured key is what indexing by that key alone
    builds. *)
Lemma transformUsersToHashByKeys_by_key h users keys userHash k :
  transformUsersToHashByKeys h users keys = Ok userHash → k ∈ keys →
  ∃ s, foldlM (index_by h k) ([], []) users = Ok s ∧
       lookup_prop userHash k = Some s.2.
Proof.
  unfold transformUsersToHashByKeys.
  intros (acc & Hfold & [= <-])%bind_Ok Hk.
  apply (index_users_by _ k _ _ ([], [])) in Hfold as (s & Hby & _ & Huh).
  - eauto.
  - apply generateKeyList_wf.
  - split; simpl.
    + by rewrite lookup_generateKeyList, bool_decide_eq_true_2.
    + destruct (proj2 (lookup_initUserHash keys k) Hk) as [hashByKey Hh].
      by rewrite Hh, (lookup_initUserHash_Some _ _ _ Hh).
Qed.

(** ** The index of one key *)

Lemma loose_eq_refl v : loose_eq v v = Ok true.
Proof.
  destruct v as [| |b|n|s|i]; simpl; try done.
  - by rewrite bool_decide_eq_true_2.
  - by rewrite Z.eqb_refl.
  - by rewrite bool_decide_eq_true_2.
  - by rewrite bool_decide_eq_true_2.
Qed.

Lemma push_bucket_Ok (hashByKey hashByKey' : obj bucket) v user :
  push_bucket hashByKey v user = Ok hashByKey' →
  ∃ name, ToString v = Ok name ∧ name ≠ "length" ∧
    hashByKey' = set_prop hashByKey name
                   (default [] (lookup_prop hashByKey name) ++ [user]).
Proof.
  unfold push_bucket. destruct (ToString v) as [name|]; [simpl|done].
  case_bool_decide; [done|]. destruct (_ || _); [done|].
  intros [= <-]. eauto.
Qed.

Lemma match_item_by_Ok (hashByKey hashByKey' : obj bucket) v user item :
  match_item_by v user hashByKey item = Ok hashByKey' →
  hashByKey' = hashByKey ∨ push_bucket hashByKey v user = Ok hashByKey'.
Proof.
  unfold match_item_by. destruct (loose_eq item v) as [[]|]; simpl;
    [by right|intros [= <-]; by left|done].
Qed.

Section IndexBy.
Variables (h : heap) (k : string).

Local Abbreviation val u := (get (h !!! u) k).

(** What the fold over the seen values keeps, if a push keeps it. *)
Lemma match_items_invariant (P : obj bucket → Prop) v user seen :
  (∀ hbk hbk', P hbk → push_bucket hbk v user = Ok hbk' → P hbk') →
  ∀ hbk hbk', P hbk → foldlM (match_item_by v user) hbk seen = Ok hbk' →
  P hbk'.
Proof.
  intros Hpush. apply foldlM_invariant.
  intros hbk item hbk' Hhbk [->|?]%match_item_by_Ok; eauto.
Qed.

Lemma index_by_invariant (P : obj bucket → Prop) (users : list nat) :
  (∀ hbk hbk' u, u ∈ users → P hbk →
                 push_bucket hbk (val u) u = Ok hbk' → P hbk') →
  ∀ s s', P s.2 → foldlM (index_by h k) s users = Ok s' → P s'.2.
Proof.
  intros Hpush. apply (foldlM_invariant_in (λ s, P s.2)).
  intros [seen hbk] u s' Hu Hs. unfold index_by.
  intros (hbk' & Hfold & [= <-])%bind_Ok. simpl in *.
  revert Hfold. apply (match_items_invariant P); [|done]. eauto.
Qed.

(** Every member of a bucket is one of the records indexed, and the name
    of the bucket is what its value for the key converts to. *)
Lemma index_by_members (users : list nat) s :
  foldlM (index_by h k) ([], []) users = Ok s →
  ∀ name (b : list nat), (name, b) ∈ s.2 →
    b ≠ [] ∧ ∀ u, u ∈ b → u ∈ users ∧ ToString (val u) = Ok name.
Proof.
  apply (index_by_invariant
           (λ hbk, ∀ name (b : list nat), (name, b) ∈ hbk →
              b ≠ [] ∧ ∀ u, u ∈ b → u ∈ users ∧ ToString (val u) = Ok name)).
  - intros hbk hbk' u Hu Hhbk (name & Hname & _ & ->)%push_bucket_Ok.
    intros name' b' [[= -> ->]|Hold]%elem_of_set_prop; [|by apply Hhbk].
    split; [by destruct (default [] _)|].
    intros u' [Hu'| ->%list_elem_of_singleton]%elem_of_app; [|done].
    destruct (lookup_prop hbk name) as [b0|] eqn:Hb0; simpl in Hu'.
    + by apply (Hhbk name b0); [apply lookup_prop_Some_elem|].
    + by apply elem_of_nil in Hu'.
  - simpl. by intros name b ?%elem_of_nil.
Qed.

Lemma push_bucket_keeps (hbk hbk' : obj bucket) v user u :
  in_own_bucket h k hbk u → push_bucket hbk v user = Ok hbk' →
  in_own_bucket h k hbk' u.
Proof.
  intros (name & b & Hname & Hb & Hu) (name' & _ & _ & ->)%push_bucket_Ok.
  exists name. rewrite lookup_set_prop.
  case_bool_decide; subst; [|by exists b].
  rewrite Hb. simpl. eexists. split; [done|]. split; [done|].
  apply elem_of_app. by left.
Qed.

Lemma push_bucket_puts (hbk hbk' : obj bucket) u :
  push_bucket hbk (val u) u = Ok hbk' → in_own_bucket h k hbk' u.
Proof.
  intros (name & Hname & _ & ->)%push_bucket_Ok.
  exists name. rewrite lookup_set_prop_eq. eexists. split; [done|].
  split; [done|]. apply elem_of_app. right. left.
Qed.

Lemma index_by_puts s u s' :
  index_by h k s u = Ok s' → in_own_bucket h k s'.2 u.
Proof.
  destruct s as [seen hbk]. unfold index_by. simpl.
  intros (hbk' & Hfold & [= <-])%bind_Ok. simpl.
  set (seen' := if not_indexOf seen (val u) then seen ++ [val u] else seen)
    in Hfold.
  assert (val u ∈ seen') as Hin.
  { unfold seen'. destruct (not_indexOf seen (val u)) eqn:Hseen.
    - apply elem_of_app. right. left.
    - apply not_true_iff_false in Hseen. rewrite not_indexOf_true in Hseen.
      by apply dec_stable in Hseen. }
  apply list_elem_of_split in Hin as (l1 & l2 & Hsplit).
  rewrite Hsplit, foldlM_app in Hfold.
  apply bind_Ok in Hfold as (hbk1 & _ & Hfold). simpl in Hfold.
  apply bind_Ok in Hfold as (hbk2 & Hstep & Hfold).
  unfold match_item_by in Hstep. rewrite loose_eq_refl in Hstep.
  simpl in Hstep. apply push_bucket_puts in Hstep.
  revert Hfold.
  apply (match_items_invariant (λ hbk, in_own_bucket h k hbk u)); [|done].
  intros. by eapply push_bucket_keeps.
Qed.

Lemma index_by_covers users : ∀ s s',
  foldlM (index_by h k) s users = Ok s' →
  ∀ u, u ∈ users → in_own_bucket h k s'.2 u.
Proof.
  induction users as [|u0 users IH]; intros s s'; simpl.
  - intros _ u Hu. by apply elem_of_nil in Hu.
  - intros (s1 & Hstep & Hrest)%bind_Ok u [->|Hu]%elem_of_cons; [|by eauto].
    apply index_by_puts in Hstep. revert Hrest.
    apply (index_by_invariant (λ hbk, in_own_bucket h k hbk u0)); [|done].
    intros. by eapply push_bucket_keeps.
Qed.

End IndexBy.

Lemma partition_size_push (hbk : obj bucket) name (u : nat) :
  partition_size (set_prop hbk name (default [] (lookup_prop hbk name) ++ [u]))
  = S (partition_size hbk).
Proof.
  unfold partition_size.
  induction hbk as [|[k0 b0] hbk IH]; [done|].
  cbn [lookup_prop set_prop]. case_bool_decide.
  - rewrite !fmap_cons. cbn [snd default sum_list sum_list_with].
    rewrite length_app. simpl. lia.
  - rewrite !fmap_cons. cbn [sum_list sum_list_with]. rewrite IH. lia.
Qed.

(** The fold over the seen values pushes once for every item that is the
    value, where [==] and [===] agree. *)
Lemma match_items_size v user seen : ∀ (hbk hbk' : obj bucket),
  (∀ x, x ∈ seen → loose_eq x v = Ok (strict_eq x v)) →
  foldlM (match_item_by v user) hbk seen = Ok hbk' →
  partition_size hbk' = partition_size hbk + count_occ value_eq_dec seen v.
Proof.
  induction seen as [|x seen IH]; intros hbk hbk' Hs; simpl.
  - intros [= <-]. lia.
  - intros (hbk1 & Hstep & Hrest)%bind_Ok.
    apply IH in Hrest; [|intros; apply Hs; by right].
    unfold match_item_by in Hstep. rewrite (Hs x) in Hstep by left.
    simpl in Hstep. unfold strict_eq in Hstep.
    destruct (value_eq_dec x v) as [->|Hne].
    + rewrite bool_decide_eq_true_2 in Hstep by done.
      apply push_bucket_Ok in Hstep as (name & _ & _ & ->).
      rewrite Hrest, partition_size_push. lia.
    + rewrite bool_decide_eq_false_2 in Hstep by done.
      injection Hstep as <-. lia.
Qed.

Lemma members_push (hbk : obj bucket) name (u : nat) :
  concat (snd <$> set_prop hbk name
                    (default [] (lookup_prop hbk name) ++ [u]))
  ≡ₚ u :: concat (snd <$> hbk).
Proof.
  induction hbk as [|[k0 b0] hbk IH]; [done|].
  cbn [lookup_prop set_prop]. case_bool_decide.
  - rewrite !fmap_cons. cbn [snd default concat].
    rewrite <-app_assoc. symmetry. apply Permutation_middle.
  - rewrite !fmap_cons. cbn [snd concat]. rewrite IH.
    symmetry. apply Permutation_middle.
Qed.

Lemma match_items_members v user seen : ∀ (hbk hbk' : obj bucket),
  (∀ x, x ∈ seen → loose_eq x v = Ok (strict_eq x v)) →
  foldlM (match_item_by v user) hbk seen = Ok hbk' →
  concat (snd <$> hbk')
  ≡ₚ replicate (count_occ value_eq_dec seen v) user ++ concat (snd <$> hbk).
Proof.
  induction seen as [|x seen IH]; intros hbk hbk' Hs; simpl.
  - by intros [= <-].
  - intros (hbk1 & Hstep & Hrest)%bind_Ok.
    apply IH in Hrest; [|intros; apply Hs; by right].
    unfold match_item_by in Hstep. rewrite (Hs x) in Hstep by left.
    simpl in Hstep. unfold strict_eq in Hstep.
    destruct (value_eq_dec x v) as [->|Hne].
    + rewrite bool_decide_eq_true_2 in Hstep by done.
      apply push_bucket_Ok in Hstep as (name & _ & _ & ->).
      rewrite Hrest, members_push. symmetry. apply Permutation_middle.
    + rewrite bool_decide_eq_false_2 in Hstep by done.
      by injection Hstep as <-.
Qed.

Lemma count_occ_NoDup_elem (l : list value) v :
  NoDup l → v ∈ l → count_occ value_eq_dec l v = 1.
Proof.
  rewrite NoDup_ListNoDup, (NoDup_count_occ value_eq_dec), list_elem_of_In.
  rewrite (count_occ_In value_eq_dec). intros Hle Hgt. specialize (Hle v). lia.
Qed.

Section IndexBySize.
Variables (h : heap) (k : string) (users : list loc).

Local Abbreviation val u := (get (h !!! u) k).

Hypothesis loose_is_strict : ∀ u u', u ∈ users → u' ∈ users →
  loose_eq (val u) (val u') = Ok (strict_eq (val u) (val u')).

Lemma index_by_seen_size us : us ⊆ users → ∀ s,
  foldlM (index_by h k) ([], []) us = Ok s →
  NoDup s.1 ∧ (∀ x, x ∈ s.1 → ∃ u, u ∈ users ∧ x = val u) ∧
  partition_size s.2 = length us ∧ concat (snd <$> s.2) ≡ₚ us.
Proof.
  induction us as [|u us IH] using rev_ind; intros Hsub s.
  - intros [= <-]. simpl. split; [constructor|].
    split; [by intros x ?%elem_of_nil|done].
  - rewrite foldlM_snoc. intros ([seen hbk] & Hus & Hu)%bind_Ok.
    apply IH in Hus as (Hnd & Hvals & Hsize & Hperm);
      [|intros x Hx; apply Hsub, elem_of_app; by left].
    simpl in *. unfold index_by in Hu. simpl in Hu.
    apply bind_Ok in Hu as (hbk' & Hfold & [= <-]). simpl.
    assert (u ∈ users) as Hin by (apply Hsub, elem_of_app; right; left).
    set (seen' := if not_indexOf seen (val u) then seen ++ [val u] else seen)
      in *.
    assert (NoDup seen' ∧ val u ∈ seen' ∧
            ∀ x, x ∈ seen' → ∃ u', u' ∈ users ∧ x = val u')
      as (Hnd' & Hv & Hvals').
    { unfold seen'. destruct (not_indexOf seen (val u)) eqn:Hseen.
      - apply not_indexOf_true in Hseen.
        split; [apply NoDup_app; split; [done|]; split;
                [by intros x ? ->%list_elem_of_singleton|apply NoDup_singleton]|].
        split; [apply elem_of_app; right; left|].
        intros x [?| ->%list_elem_of_singleton]%elem_of_app; eauto.
      - apply not_true_iff_false in Hseen. rewrite not_indexOf_true in Hseen.
        apply dec_stable in Hseen. done. }
    assert (∀ x, x ∈ seen' → loose_eq x (val u) = Ok (strict_eq x (val u)))
      as Hagree.
    { intros x (u' & Hu' & ->)%Hvals'. by apply loose_is_strict. }
    split; [done|]. split; [done|]. split.
    + apply match_items_size in Hfold; [|done].
      rewrite Hfold, Hsize, count_occ_NoDup_elem, length_app by done.
      simpl. lia.
    + apply match_items_members in Hfold; [|done].
      rewrite Hfold, count_occ_NoDup_elem, Hperm by done. simpl.
      apply Permutation_cons_append.
Qed.

End IndexBySize.

Lemma lookup_prop_elem_NoDup {A : Type} (o : obj A) k a :
  NoDup (fst <$> o) → (k, a) ∈ o → lookup_prop o k = Some a.
Proof.
  induction o as [|[k0 a0] o IH]; simpl.
  - by intros _ ?%elem_of_nil.
  - intros [Hk0 Hnd]%NoDup_cons [[= -> ->]|Hin]%elem_of_cons.
    + by rewrite bool_decide_eq_true_2.
    + rewrite bool_decide_eq_false_2; [by apply IH|].
      intros ->. apply Hk0, list_elem_of_fmap. by exists (k, a).
Qed.

Lemma NoDup_initUserHash keys : NoDup (fst <$> initUserHash keys).
Proof.
  unfold initUserHash. induction keys as [|k keys IH] using rev_ind.
  - constructor.
  - rewrite foldl_app. simpl. by apply NoDup_fst_set_prop.
Qed.

Lemma transformUsersToHashByKeys_NoDup h users keys userHash :
  transformUsersToHashByKeys h users keys = Ok userHash →
  NoDup (fst <$> userHash).
Proof.
  apply (transformUsersToHashByKeys_invariant (λ uh, NoDup (fst <$> uh))).
  - apply NoDup_initUserHash.
  - intros uh k v user uh' Hnd. unfold push_to_bucket.
    destruct (lookup_prop uh k); [|done].
    destruct (ToString v); simpl; [|done].
    case_bool_decide; [done|]. destruct (_ || _); [done|].
    intros [= <-]. by apply NoDup_fst_set_prop.
Qed.

(** The hash of a key, as an entry of the index. *)
Lemma transformUsersToHashByKeys_entry h users keys userHash k hashByKey :
  transformUsersToHashByKeys h users keys = Ok userHash →
  (k, hashByKey) ∈ userHash →
  ∃ s, foldlM (index_by h k) ([], []) users = Ok s ∧ s.2 = hashByKey.
Proof.
  intros Huh Hin.
  assert (k ∈ keys) as Hk.
  { eapply transformUsersToHashByKeys_keys; [done|].
    by eapply elem_lookup_prop_is_Some. }
  destruct (transformUsersToHashByKeys_by_key _ _ _ _ _ Huh Hk)
    as (s & Hs & Hlook).
  exists s. split; [done|].
  apply (lookup_prop_elem_NoDup userHash) in Hin;
    [congruence|by eapply transformUsersToHashByKeys_NoDup].
Qed.

(** *** One configured key *)

Lemma Object_keys_singleton {A : Type} k (a : A) : Object_keys [(k, a)] = [k].
Proof.
  unfold Object_keys, for_in, named_props. simpl.
  rewrite filter_cons, filter_nil. simpl.
  destruct (array_index k); simpl; try case_decide; done.
Qed.

Lemma match_list_items_single k v user seen : ∀ (hashByKey : obj bucket),
  foldlM (match_list_item k v user) [(k, hashByKey)] seen =
  foldlM (match_item_by v user) hashByKey seen ≫= λ hashByKey',
    Ok [(k, hashByKey')].
Proof.
  induction seen as [|item seen IH]; intros hbk; [done|].
  cbn [foldlM].
  assert (match_list_item k v user [(k, hbk)] item =
          match_item_by v user hbk item ≫= λ hbk', Ok [(k, hbk')]) as ->.
  { unfold match_list_item, match_item_by.
    destruct (loose_eq item v) as [[]|]; simpl; [|done..].
    rewrite (push_to_bucket_by _ _ hbk)
      by (simpl; by rewrite bool_decide_eq_true_2).
    destruct (push_bucket hbk v user) as [hbk'|]; simpl; [|done].
    by rewrite bool_decide_eq_true_2. }
  destruct (match_item_by v user hbk item) as [hbk'|]; simpl; [apply IH|done].
Qed.

Lemma index_users_single h k users : ∀ seen (hashByKey : obj bucket),
  foldlM (index_user h)
    ([(k, {| kl_key := k; kl_list := seen |})], [(k, hashByKey)]) users =
  foldlM (index_by h k) (seen, hashByKey) users ≫= λ s,
    Ok ([(k, {| kl_key := k; kl_list := s.1 |})], [(k, s.2)]).
Proof.
  induction users as [|u users IH]; intros seen hbk; [done|].
  cbn [foldlM].
  assert (index_user h
            ([(k, {| kl_key := k; kl_list := seen |})], [(k, hbk)]) u =
          index_by h k (seen, hbk) u ≫= λ s,
            Ok ([(k, {| kl_key := k; kl_list := s.1 |})], [(k, s.2)])) as ->.
  { unfold index_user, index_by. cbn [fst snd].
    rewrite Object_keys_singleton. cbn [foldlM].
    unfold index_user_by. cbn [lookup_prop].
    rewrite bool_decide_eq_true_2 by done. cbn [kl_key kl_list set_prop].
    rewrite bool_decide_eq_true_2 by done.
    rewrite match_list_items_single.
    by destruct (foldlM (match_item_by _ _) hbk _) as [hbk'|]. }
  destruct (index_by h k (seen, hbk) u) as [[seen' hbk']|]; simpl;
    [apply IH|done].
Qed.

Lemma transformUsersToHashByKeys_single h users k :
  transformUsersToHashByKeys h users [k] =
  foldlM (index_by h k) ([], []) users ≫= λ s, Ok [(k, s.2)].
Proof.
  unfold transformUsersToHashByKeys, generateKeyList, initUserHash. simpl.
  rewrite index_users_single.
  by destruct (foldlM (index_by h k) _ users).
Qed.

(** ** The index as a whole *)



(** X11.  Every bucket of the index has a member, every member is one of
    the records that were indexed, and the name of the bucket is the string
    form of the member's value for the key of the bucket. *)
Theorem transformUsersToHashByKeys_members
  h users keys userHash key hashByKey name (b : list nat) :
  transformUsersToHashByKeys h users keys = Ok userHash →
  (key, hashByKey) ∈ userHash → (name, b) ∈ hashByKey →
  b ≠ [] ∧
  ∀ u, u ∈ b → u ∈ users ∧ ToString (get (h !!! u) key) = Ok name.
Proof.
  intros Huh Hkey Hb.
  destruct (transformUsersToHashByKeys_entry _ _ _ _ _ _ Huh Hkey)
    as (s & Hs & <-).
  by apply (index_by_members h key users s).
Qed.

Lemma transformUsersToHashByKeys_members_witness :
  [0; 1; 2; 2] ≠ [] ∧
  ∀ u, u ∈ [0; 1; 2; 2] →
    u ∈ [0; 1; 2] ∧ ToString (get (three_entries !!! u) "_id") = Ok "7".
Proof.
  apply (transformUsersToHashByKeys_members
           three_entries [0; 1; 2] KEYS_WITH_DUPES
           [("_id", [("7", [0; 1; 2; 2])]);
            ("email", [("a@x.com", [0; 2]); ("b@x.com", [1])])]
           "_id" [("7", [0; 1; 2; 2])]).
  - vm_compute. reflexivity.
  - repeat constructor.
  - repeat constructor.
Defined.





Lemma index_by_no_length h k users s :
  foldlM (index_by h k) ([], []) users = Ok s →
  ∀ name (b : list nat), (name, b) ∈ s.2 → name ≠ "length".
Proof.
  apply (index_by_invariant h k
           (λ hbk, ∀ name (b : list nat), (name, b) ∈ hbk → name ≠ "length")).
  - intros hbk hbk' u _ Hhbk (name & _ & Hname & ->)%push_bucket_Ok.
    intros name' b' [[= -> ->]|Hold]%elem_of_set_prop; [done|].
    by apply (Hhbk name' b').
  - simpl. by intros name b ?%elem_of_nil.
Qed.



(** ** The passes of [getResolveDuplicates] *)

Lemma consolidate_key_heads userHash acc key acc' :
  consolidate_key userHash acc key = Ok acc' →
  ∀ u, u ∈ acc'.1 → bucket_head userHash u.
Proof.
  unfold consolidate_key. intros Hrun u Hu.
  apply consolidate_buckets_Ok in Hrun as (cs & Hcs & Hall). simpl in Hcs.
  rewrite Hcs in Hu. apply list_elem_of_lookup in Hu as [i Hi].
  destruct (Forall2_lookup_l _ _ _ _ _ Hall Hi) as (b & Hb & Hhead).
  apply list_elem_of_lookup_2, list_elem_of_fmap in Hb
    as ([name b'] & -> & Hin).
  apply (proj1 (elem_of_for_in _ _)) in Hin.
  destruct (lookup_prop userHash key) as [hashByKey|] eqn:Hkey; simpl in Hin.
  - apply lookup_prop_Some_elem in Hkey. by exists key, hashByKey, name, b'.
  - by apply elem_of_nil in Hin.
Qed.

Lemma getConsolidatedUserList_heads userHash keys st acc :
  getConsolidatedUserList userHash keys st = Ok acc →
  ∀ u, u ∈ acc.1 → bucket_head userHash u.
Proof.
  unfold getConsolidatedUserList.
  apply (foldlM_invariant
           (λ a : list nat * state, ∀ u, u ∈ a.1 → bucket_head userHash u)).
  - intros a _ a' Ha.
    apply (foldlM_invariant
             (λ a : list nat * state, ∀ u, u ∈ a.1 → bucket_head userHash u));
      [|done].
    intros a0 key a1 _. apply consolidate_key_heads.
  - simpl. by intros u ?%elem_of_nil.
Qed.

Lemma transformUsersToHashByKeys_heads h users keys userHash u :
  transformUsersToHashByKeys h users keys = Ok userHash →
  bucket_head userHash u → u ∈ users.
Proof.
  intros Huh (key & hashByKey & name & b & Hkey & Hb & Hhead).
  destruct (transformUsersToHashByKeys_entry _ _ _ _ _ _ Huh Hkey)
    as (s & Hs & <-).
  apply (index_by_members h key users s Hs name b Hb).
  destruct b; [done|]. injection Hhead as ->. left.
Qed.

Lemma getResolveDuplicates_only_writes fuel :
  ∀ users keys st consolidatedUsers st',
  getResolveDuplicates fuel users keys st = Ok (consolidatedUsers, st') →
  consolidatedUsers ⊆ users ∧ only_writes (λ m, m ∈ users) st st'.
Proof.
  induction fuel as [|fuel IH]; intros users keys st L st'; [done|].
  cbn [getResolveDuplicates].
  intros (userHash & Huh & ([L1 st1] & Hpass & Hrest)%bind_Ok)%bind_Ok.
  assert (L1 ⊆ users) as Hsub.
  { intros u Hu. eapply transformUsersToHashByKeys_heads; [done|].
    by apply (getConsolidatedUserList_heads _ _ _ _ Hpass). }
  assert (only_writes (λ m, m ∈ users) st st1) as Hst1.
  { eapply only_writes_weaken;
      [|by apply (getConsolidatedUserList_only_writes _ _ _ _ Hpass)].
    intros m Hm. by eapply transformUsersToHashByKeys_heads. }
  destruct (0 <? length _) in Hrest.
  - apply IH in Hrest as [HL Hst']. split; [by intros u ?%HL%Hsub|].
    eapply only_writes_trans; [done|].
    eapply only_writes_trans; [apply writelog_only_writes|].
    eapply only_writes_weaken; [|done]. intros m. apply Hsub.
  - by injection Hrest as <- <-.
Qed.

(** X15.  A run of [getResolveDuplicates] creates no record and touches no
    record outside its input: the records it returns are among the records
    it was given, the heap keeps its size, a record that is not in the
    input is as before, and the change log is only appended to. *)
Theorem getResolveDuplicates_within_input
  fuel users keys st consolidatedUsers st' :
  getResolveDuplicates fuel users keys st = Ok (consolidatedUsers, st') →
  (∀ u, u ∈ consolidatedUsers → u ∈ users) ∧
  length (st_heap st') = length (st_heap st) ∧
  st_log st `prefix_of` st_log st' ∧
  ∀ m, m ∉ users → st_heap st' !! m = st_heap st !! m.
Proof.
  intros [Hsub (Hlen & Hlog & Hframe)]%getResolveDuplicates_only_writes.
  split; [done|]. split; [done|]. split; done.
Qed.

Lemma getResolveDuplicates_within_input_witness :
  ∃ consolidatedUsers st',
    getResolveDuplicates 2 [0; 1] KEYS_WITH_DUPES
      {| st_heap := changed_email ++ two_persons; st_log := [] |}
    = Ok (consolidatedUsers, st') ∧
    (∀ u, u ∈ consolidatedUsers → u ∈ [0; 1]) ∧
    length (st_heap st') = length (changed_email ++ two_persons) ∧
    [] `prefix_of` st_log st' ∧
    ∀ m, m ∉ [0; 1] →
      st_heap st' !! m = (changed_email ++ two_persons) !! m.
Proof.
  eexists _, _. split; [vm_compute; reflexivity|].
  eapply (getResolveDuplicates_within_input 2 [0; 1] KEYS_WITH_DUPES
            {| st_heap := changed_email ++ two_persons; st_log := [] |}).
  vm_compute. reflexivity.
Defined.

(** ** Records without a shared value *)

Lemma match_items_none v user seen (hashByKey : obj bucket) :
  (∀ x, x ∈ seen → loose_eq x v = Ok false) →
  foldlM (match_item_by v user) hashByKey seen = Ok hashByKey.
Proof.
  induction seen as [|x seen IH]; intros Hne; [done|]. cbn [foldlM].
  assert (match_item_by v user hashByKey x = Ok hashByKey) as ->
    by (unfold match_item_by; by rewrite Hne by left).
  simpl. apply IH. intros. apply Hne. by right.
Qed.

Lemma push_bucket_plain (hashByKey : obj bucket) name user :
  plain_name name →
  push_bucket hashByKey (VStr name) user
  = Ok (set_prop hashByKey name
          (default [] (lookup_prop hashByKey name) ++ [user])).
Proof.
  intros (? & ? & ? & _). unfold push_bucket. simpl.
  by rewrite !bool_decide_eq_false_2.
Qed.

Section IndexByDistinct.
Variables (h : heap) (k : string).

Local Abbreviation val u := (get (h !!! u) k).

(** Records with distinct plain values get a bucket each, in their order. *)
Lemma index_by_distinct us :
  (∀ u, u ∈ us → plain_value (val u)) →
  NoDup (values_of h us k) →
  ∃ hbk : obj bucket,
    foldlM (index_by h k) ([], []) us = Ok (values_of h us k, hbk) ∧
    snd <$> hbk = (λ u, [u]) <$> us ∧
    ∀ name, name ∈ fst <$> hbk →
      plain_name name ∧ ∃ u, u ∈ us ∧ val u = VStr name.
Proof.
  induction us as [|u us IH] using rev_ind; intros Hplain Hnd.
  { exists []. split; [done|]. split; [done|]. by intros name ?%elem_of_nil. }
  unfold values_of in *. rewrite fmap_app in *. simpl in *.
  apply NoDup_app in Hnd as (Hnd & Hnew & _).
  destruct IH as (hbk & Hfold & Hsnd & Hnames); [|done|].
  { intros. apply Hplain, elem_of_app. by left. }
  destruct (Hplain u) as (name & Hv & Hname);
    [apply elem_of_app; right; left|].
  assert (val u ∉ (λ u, val u) <$> us) as Hfresh.
  { intros Hin. apply (Hnew _ Hin). left. }
  exists (hbk ++ [(name, [u])]).
  split; [|split].
  - rewrite foldlM_snoc, Hfold. simpl. unfold index_by. simpl.
    rewrite (proj2 (not_indexOf_true _ _) Hfresh).
    rewrite foldlM_snoc, match_items_none; simpl.
    + assert (lookup_prop hbk name = None) as Hnone.
      { apply lookup_prop_None. intros (_ & u' & Hu' & Hvu')%Hnames.
        apply Hfresh, list_elem_of_fmap. exists u'.
        split; [congruence|done]. }
      unfold match_item_by. rewrite loose_eq_refl. simpl.
      rewrite Hv, push_bucket_plain by done. simpl.
      by rewrite fst_set_prop_new, Hnone by done.
    + intros x (u' & -> & Hu')%list_elem_of_fmap.
      destruct (Hplain u') as (name' & Hv' & _);
        [apply elem_of_app; by left|].
      rewrite Hv, Hv'. simpl. rewrite bool_decide_eq_false_2; [done|].
      intros ->. apply Hfresh, list_elem_of_fmap. exists u'.
      split; [congruence|done].
  - by rewrite !fmap_app, Hsnd.
  - rewrite fmap_app. simpl.
    intros name' [Hold| ->%list_elem_of_singleton]%elem_of_app.
    + destruct (Hnames _ Hold) as (? & u' & ? & ?). split; [done|].
      exists u'. split; [apply elem_of_app; by left|done].
    + split; [done|]. exists u. split; [apply elem_of_app; right; left|done].
Qed.

End IndexByDistinct.

Lemma match_list_items_plain j v user seen : ∀ (userHash : userHashT),
  (∀ x, x ∈ seen → ∃ s, x = VStr s) → plain_value v →
  is_Some (lookup_prop userHash j) →
  ∃ userHash',
    foldlM (match_list_item j v user) userHash seen = Ok userHash' ∧
    ∀ j', is_Some (lookup_prop userHash' j') ↔
          is_Some (lookup_prop userHash j').
Proof.
  intros userHash Hseen (name & -> & Hname) Hj.
  apply (foldlM_total_inv
           (λ uh : userHashT, ∀ j', is_Some (lookup_prop uh j') ↔
                                   is_Some (lookup_prop userHash j')));
    [|done].
  intros uh x Hx Huh. destruct (Hseen x Hx) as [s ->].
  unfold match_list_item. simpl. case_bool_decide; [|eauto].
  destruct (proj2 (Huh j) Hj) as [hbk Hhbk].
  rewrite (push_to_bucket_by _ _ hbk), push_bucket_plain by done. simpl.
  eexists. split; [done|]. intros j'. rewrite lookup_set_prop, <-Huh.
  case_bool_decide; [subst; by rewrite Hhbk|done].
Qed.

Lemma transformUsersToHashByKeys_plain h users keys :
  (∀ u k, u ∈ users → k ∈ keys → plain_value (get (h !!! u) k)) →
  ∃ userHash, transformUsersToHashByKeys h users keys = Ok userHash.
Proof.
  intros Hplain. unfold transformUsersToHashByKeys.
  set (T := λ acc : obj keyListEntry * userHashT,
         keyList_wf acc.1 ∧
         (∀ j e, lookup_prop acc.1 j = Some e →
                 j ∈ keys ∧ ∀ x, x ∈ kl_list e → ∃ s, x = VStr s) ∧
         (∀ j, j ∈ keys → is_Some (lookup_prop acc.2 j))).
  destruct (foldlM_total_inv T (index_user h) users) with
    (a := (generateKeyList keys, initUserHash keys)) as (acc & -> & _);
    [| |by eexists].
  - intros acc u Hu HT. unfold index_user.
    destruct (foldlM_total_inv
                (λ a, T a ∧ ∀ j, j ∈ Object_keys acc.1 →
                                 is_Some (lookup_prop a.1 j))
                (index_user_by h u) (Object_keys acc.1)) with (a := acc)
      as (acc' & Hacc' & HT' & _).
    + intros [keyList uh] j Hj [(Hwf & Hkl & Huh) Hjs]. simpl in *.
      destruct (Hjs j Hj) as [e He]. unfold index_user_by. rewrite He.
      destruct (Hkl j e He) as [Hjk Hstr].
      assert (kl_key e = j) as Hkey by (by apply Hwf). rewrite Hkey.
      set (seen := if not_indexOf (kl_list e) (get (h !!! u) j)
                   then kl_list e ++ [get (h !!! u) j] else kl_list e).
      assert (∀ x, x ∈ seen → ∃ s, x = VStr s) as Hseen.
      { unfold seen. destruct (not_indexOf _ _); [|done].
        intros x [?| ->%list_elem_of_singleton]%elem_of_app; [by auto|].
        destruct (Hplain u j Hu Hjk) as (s & -> & _). eauto. }
      destruct (match_list_items_plain j (get (h !!! u) j) u seen uh)
        as (uh' & -> & Hdom); [done|by apply Hplain|by apply Huh|].
      simpl. eexists. split; [done|]. unfold T. simpl.
      split; [split; [|split]|].
      * rewrite <-Hkey at 2. by apply keyList_wf_set.
      * intros j0 e0. rewrite lookup_set_prop. case_bool_decide.
        -- intros [= <-]. subst. done.
        -- apply Hkl.
      * intros j0 Hj0. apply Hdom. by apply Huh.
      * intros j0 Hj0. rewrite lookup_set_prop.
        case_bool_decide; [done|by apply Hjs].
    + split; [done|]. intros j. by rewrite elem_of_Object_keys.
    + eauto.
  - split; [apply generateKeyList_wf|]. simpl. split.
    + intros j e. rewrite lookup_generateKeyList.
      case_bool_decide; [|done]. intros [= <-]. split; [done|].
      by intros x ?%elem_of_nil.
    + intros j. apply lookup_initUserHash.
Qed.

Lemma scan_values_cons h u users keys :
  scan_values h (u :: users) keys =
  ((λ key, get (h !!! u) key) <$> keys) ++ scan_values h users keys.
Proof. done. Qed.

Lemma elem_of_scan_values h users keys u k :
  u ∈ users → k ∈ keys → get (h !!! u) k ∈ scan_values h users keys.
Proof.
  intros Hu Hk. induction users as [|u0 users IH].
  { by apply elem_of_nil in Hu. }
  rewrite scan_values_cons. apply elem_of_app.
  apply elem_of_cons in Hu as [->|Hu]; [left|right; by apply IH].
  apply list_elem_of_fmap. by exists k.
Qed.

Lemma NoDup_values_of h users keys k :
  k ∈ keys → NoDup (scan_values h users keys) → NoDup (values_of h users k).
Proof.
  intros Hk. induction users as [|u users IH]; [constructor|].
  rewrite scan_values_cons. intros (_ & Hnew & Hnd)%NoDup_app.
  unfold values_of. simpl. apply NoDup_cons. split; [|by apply IH].
  intros (u' & Hv & Hu')%list_elem_of_fmap.
  apply (Hnew (get (h !!! u) k)).
  - apply list_elem_of_fmap. by exists k.
  - rewrite Hv. by apply elem_of_scan_values.
Qed.

Lemma concat_singletons (l : list nat) : concat ((λ u, [u]) <$> l) = l.
Proof. induction l as [|u l IH]; simpl; [done|by f_equal]. Qed.



Lemma NoDup_scan_values_users h users k keys :
  NoDup (scan_values h users (k :: keys)) → NoDup users.
Proof.
  induction users as [|u users IH]; [constructor|].
  rewrite scan_values_cons. intros (_ & Hnew & Hnd)%NoDup_app.
  apply NoDup_cons. split; [|by apply IH].
  intros Hu. apply (Hnew (get (h !!! u) k)); [left|].
  apply elem_of_scan_values; [done|left].
Qed.

(** X17.  No record is returned twice, and the list returned is never longer
    than the list given, whatever the number of passes. *)
Theorem getResolveDuplicates_no_repetition
  fuel users keys st consolidatedUsers st' :
  getResolveDuplicates fuel users keys st = Ok (consolidatedUsers, st') →
  NoDup consolidatedUsers ∧ length consolidatedUsers ≤ length users.
Proof.
  intros Hrun.
  assert (NoDup consolidatedUsers) as Hnd.
  { destruct keys as [|k keys].
    - destruct fuel; [done|]. cbn [getResolveDuplicates] in Hrun.
      rewrite transformUsersToHashByKeys_no_keys in Hrun.
      injection Hrun as <- <-. constructor.
    - eapply NoDup_scan_values_users, getListOfDuplicateValues_nil.
      by eapply getResolveDuplicates_scan. }
  split; [done|]. apply submseteq_length, NoDup_submseteq; [done|].
  by apply getResolveDuplicates_only_writes in Hrun as [Hsub _].
Qed.

Lemma getResolveDuplicates_no_repetition_witness :
  ∃ consolidatedUsers st',
    getResolveDuplicates 2 [0; 1; 0] KEYS_WITH_DUPES (load changed_email).2
    = Ok (consolidatedUsers, st') ∧
    NoDup consolidatedUsers ∧ length consolidatedUsers ≤ length [0; 1; 0].
Proof.
  eexists _, _. split; [vm_compute; reflexivity|].
  eapply (getResolveDuplicates_no_repetition 2 [0; 1; 0] KEYS_WITH_DUPES
            (load changed_email).2).
  vm_compute. reflexivity.
Defined.

Lemma set_prop_same {A : Type} (o : obj A) k a :
  lookup_prop o k = Some a → set_prop o k a = o.
Proof.
  induction o as [|[k0 a0] o IH]; simpl; [done|].
  case_bool_decide; [by intros [= ->]|]. intros. f_equal. auto.
Qed.

(** X18.  Configuring a key a second time does not change the index: the
    key list and the hash have one entry per distinct key, the entry of a
    key that is configured again is set to what it already is. *)
Theorem transformUsersToHashByKeys_repeated_key h users keys k :
  k ∈ keys →
  generateKeyList (keys ++ [k]) = generateKeyList keys ∧
  initUserHash (keys ++ [k]) = initUserHash keys ∧
  transformUsersToHashByKeys h users (keys ++ [k])
  = transformUsersToHashByKeys h users keys.
Proof.
  intros Hk.
  assert (generateKeyList (keys ++ [k]) = generateKeyList keys) as Hkl.
  { unfold generateKeyList. rewrite foldl_app. simpl. apply set_prop_same.
    fold (generateKeyList keys).
    by rewrite lookup_generateKeyList, bool_decide_eq_true_2. }
  assert (initUserHash (keys ++ [k]) = initUserHash keys) as Huh.
  { unfold initUserHash. rewrite foldl_app. simpl. apply set_prop_same.
    fold (initUserHash keys).
    destruct (proj2 (lookup_initUserHash keys k) Hk) as [hbk Hhbk].
    by rewrite Hhbk, (lookup_initUserHash_Some _ _ _ Hhbk). }
  split; [done|]. split; [done|].
  unfold transformUsersToHashByKeys. by rewrite Hkl, Huh.
Qed.

Lemma transformUsersToHashByKeys_repeated_key_witness :
  generateKeyList (["_id"; "email"] ++ ["_id"])
  = generateKeyList ["_id"; "email"] ∧
  initUserHash (["_id"; "email"] ++ ["_id"]) = initUserHash ["_id"; "email"] ∧
  transformUsersToHashByKeys three_entries [0; 1; 2]
    (["_id"; "email"] ++ ["_id"])
  = transformUsersToHashByKeys three_entries [0; 1; 2] ["_id"; "email"].
Proof.
  apply (transformUsersToHashByKeys_repeated_key
           three_entries [0; 1; 2] ["_id"; "email"] "_id").
  repeat constructor.
Defined.
